(** * Static Huffman file compressor (huffman.cpp): model and properties

    The development embeds the core of [huffman.cpp] -- frequency
    analysis, tree construction, code generation, bit-level coding and the
    binary container -- as executable Rocq functions, and states the
    properties of the specification over them.

    Modelling conventions.
    - A [char] is one byte ([Byte.byte]); a [std::string] of file contents
      is a [list byte].
    - The strings [encodedText], [str] and the values of [huffmanCode] only
      ever hold the characters '0' and '1'; they are modelled as
      [list bool] with [false] for '0' and [true] for '1'.
    - [int], [uint8_t], [uint16_t] and [uint32_t] are integers in [Z] with
      the wrap-around of each conversion and addition written out; an [int]
      that overflows wraps in two's complement, as the increment and the
      addition do on the usual targets.
    - [Node*] is the type [Node]; [nullptr] is a constructor of it.
    - What the C++ standard leaves undefined (dereferencing [nullptr],
      [top()] of an empty queue, using a variable that a failed [read] did
      not fill) and the exception of [unordered_map::at] are results
      [Fault _]; a normal return is [Ok _].
    - The standard library containers are not part of the program text.
      Their observable choices -- the iteration order of
      [std::unordered_map], the order in which [std::priority_queue]
      hands back elements, the byte order of the host -- are the fields of
      the class [Platform]; what every conforming library guarantees is
      the class [Lawful]. *)

From Stdlib Require Import ZArith List Bool Lia Permutation Arith.
From Stdlib Require Import Strings.Byte.
From Stdlib Require Strings.String Strings.Ascii.
Import String.StringSyntax.
Delimit Scope string_scope with string.
Import ListNotations.

Set Implicit Arguments.
Open Scope Z_scope.

(** ** Machine integers and bytes *)

Abbreviation char := byte (only parsing).

(** Conversion to [int] (32-bit two's complement). *)
Definition int_wrap (z : Z) : Z := (z + 2 ^ 31) mod 2 ^ 32 - 2 ^ 31.

Definition uint8_wrap (z : Z) : Z := z mod 2 ^ 8.
Definition uint16_wrap (z : Z) : Z := z mod 2 ^ 16.
Definition uint32_wrap (z : Z) : Z := z mod 2 ^ 32.

Definition byte_to_Z (b : byte) : Z := Z.of_N (Byte.to_N b).

Definition Z_to_byte (z : Z) : byte :=
  match Byte.of_N (Z.to_N (z mod 256)) with
  | Some b => b
  | None => x00
  end.

(** ** Faults and the result monad *)

Inductive fault : Type :=
| EmptyTop            (* priority_queue::top() on an empty queue *)
| NullDereference     (* p->field with p == nullptr *)
| OutOfRange          (* unordered_map::at on a missing key *)
| UninitializedRead   (* a variable used after the read that fills it failed *)
| EraseOutOfBounds    (* string::erase before begin() *)
| LoopFuel.           (* the bound given to a while loop was too small *)

Inductive result (A : Type) : Type :=
| Ok (a : A)
| Fault (f : fault).

Arguments Ok {A} a.
Arguments Fault {A} f.

Definition bind {A B : Type} (c : result A) (k : A -> result B) : result B :=
  match c with
  | Ok a => k a
  | Fault f => Fault f
  end.

Notation "x <- c1 ;; c2" := (bind c1 (fun x => c2))
  (at level 61, c1 at next level, right associativity).
Notation "' pat <- c1 ;; c2" := (bind c1 (fun x => match x with pat => c2 end))
  (at level 61, pat pattern, c1 at next level, right associativity).

(** ** std::unordered_map<char, V>

    The state of a map that only ever receives insertions and assignments
    is its list of entries in the order in which the keys were first
    inserted.  The order of iteration is a choice of the library
    ([iterate] in [Platform]). *)

Section UnorderedMap.
Variable V : Type.

Definition unordered_map := list (char * V).

Fixpoint um_find (k : char) (m : unordered_map) : option V :=
  match m with
  | [] => None
  | (k', v) :: r => if Byte.eqb k k' then Some v else um_find k r
  end.

(** [m[k] = v]: assigns in place, or inserts a new last entry. *)
Fixpoint um_assign (k : char) (v : V) (m : unordered_map) : unordered_map :=
  match m with
  | [] => [(k, v)]
  | (k', v') :: r =>
      if Byte.eqb k k' then (k, v) :: r else (k', v') :: um_assign k v r
  end.

(** The value [m[k]] reads: the stored one, or the value-initialised
    default [d] of a fresh entry. *)
Definition um_index (k : char) (d : V) (m : unordered_map) : V :=
  match um_find k m with
  | Some v => v
  | None => d
  end.

(** [m.at(k)] *)
Definition um_at (k : char) (m : unordered_map) : result V :=
  match um_find k m with
  | Some v => Ok v
  | None => Fault OutOfRange
  end.

Definition keys (m : unordered_map) : list char := map fst m.

End UnorderedMap.

(** ** struct Node *)

Inductive Node : Type :=
| nullptr
| new_Node (ch : char) (freq : Z) (left right : Node).

Definition is_null (p : Node) : bool :=
  match p with nullptr => true | _ => false end.

Definition get_ch (p : Node) : result char :=
  match p with nullptr => Fault NullDereference | new_Node c _ _ _ => Ok c end.
Definition get_freq (p : Node) : result Z :=
  match p with nullptr => Fault NullDereference | new_Node _ f _ _ => Ok f end.
Definition get_left (p : Node) : result Node :=
  match p with nullptr => Fault NullDereference | new_Node _ _ l _ => Ok l end.
Definition get_right (p : Node) : result Node :=
  match p with nullptr => Fault NullDereference | new_Node _ _ _ r => Ok r end.

(** [!p->left && !p->right] *)
Definition is_leaf (p : Node) : result bool :=
  l <- get_left p ;; r <- get_right p ;; Ok (is_null l && is_null r).

(** [struct Compare]: the queue only ever holds nodes that were
    allocated, so the frequency of [nullptr] is never asked for. *)
Definition freq_or_zero (p : Node) : Z :=
  match p with nullptr => 0 | new_Node _ f _ _ => f end.
Definition Compare (l r : Node) : bool := freq_or_zero l >? freq_or_zero r.

(** ** The platform: library and host choices *)

Class Platform : Type := {
  (** order in which a range-for visits an [unordered_map<char,int>] whose
      keys were inserted in the order of the argument *)
  iterate : unordered_map Z -> unordered_map Z;
  (** [priority_queue<Node*, vector<Node*>, Compare>], the queue being the
      list of its elements *)
  pq_push : Node -> list Node -> list Node;
  pq_top : list Node -> option Node;
  pq_pop : list Node -> list Node;
  (** byte order of the object representation of integers *)
  big_endian : bool
}.

(** What any conforming library provides: iteration visits each entry
    once; [push] adds the element; [top] of a non-empty queue is one of its
    elements and [pop] removes that element; [top] of an empty queue is
    undefined.  That [top] has the least frequency is true of the library
    too, but no property below depends on it, so it is not assumed: the
    properties hold whatever the order among the nodes. *)
Class Lawful (P : Platform) : Prop := {
  iterate_perm : forall m, Permutation (iterate m) m;
  pq_push_perm : forall x h, Permutation (pq_push x h) (x :: h);
  pq_top_nil : pq_top [] = None;
  pq_top_pop : forall h, h <> [] ->
    exists x, pq_top h = Some x /\ Permutation h (x :: pq_pop h)
}.

(** ** buildFrequencyMap *)

(** [freqMap[ch]++] *)
Definition increment (freqMap : unordered_map Z) (ch : char) : unordered_map Z :=
  um_assign ch (int_wrap (um_index ch 0 freqMap + 1)) freqMap.

Definition buildFrequencyMap (text : list char) : unordered_map Z :=
  fold_left increment text [].

Section Program.
Context {P : Platform}.

(** ** buildHuffmanTree *)

Definition top (minHeap : list Node) : result Node :=
  match pq_top minHeap with
  | Some p => Ok p
  | None => Fault EmptyTop
  end.

Definition push_leaves (freqMap : unordered_map Z) : list Node :=
  fold_left (fun minHeap pair =>
               pq_push (new_Node (fst pair) (snd pair) nullptr nullptr) minHeap)
            (iterate freqMap) [].

(** [while (minHeap.size() > 1) { ... }]; [fuel] bounds the number of
    iterations. *)
Fixpoint merge_loop (fuel : nat) (minHeap : list Node) : result (list Node) :=
  if (length minHeap <=? 1)%nat then Ok minHeap
  else match fuel with
       | O => Fault LoopFuel
       | S fuel' =>
           left <- top minHeap ;;
           let minHeap1 := pq_pop minHeap in
           right <- top minHeap1 ;;
           let minHeap2 := pq_pop minHeap1 in
           lf <- get_freq left ;;
           rf <- get_freq right ;;
           let merged := new_Node x00 (int_wrap (lf + rf)) left right in
           merge_loop fuel' (pq_push merged minHeap2)
       end.

Definition buildHuffmanTree (freqMap : unordered_map Z) : result Node :=
  let minHeap := push_leaves freqMap in
  minHeap' <- merge_loop (length minHeap) minHeap ;;
  top minHeap'.

(** ** generateCodes *)

Fixpoint generateCodes (root : Node) (str : list bool)
         (huffmanCode : unordered_map (list bool)) : unordered_map (list bool) :=
  match root with
  | nullptr => huffmanCode
  | new_Node ch _ root_left root_right =>
      let huffmanCode1 :=
        if is_null root_left && is_null root_right
        then um_assign ch str huffmanCode
        else huffmanCode in
      let huffmanCode2 := generateCodes root_left (str ++ [false]) huffmanCode1 in
      generateCodes root_right (str ++ [true]) huffmanCode2
  end.

(** ** encodeText *)

Fixpoint encodeText (text : list char) (huffmanCode : unordered_map (list bool))
  : result (list bool) :=
  match text with
  | [] => Ok []
  | ch :: text' =>
      code <- um_at ch huffmanCode ;;
      rest <- encodeText text' huffmanCode ;;
      Ok (code ++ rest)
  end.

(** ** Object representation of integers *)

Fixpoint le_bytes (n : nat) (z : Z) : list byte :=
  match n with
  | O => []
  | S n' => Z_to_byte z :: le_bytes n' (z / 256)
  end.

Fixpoint le_value (bs : list byte) : Z :=
  match bs with
  | [] => 0
  | b :: bs' => byte_to_Z b + 256 * le_value bs'
  end.

(** [reinterpret_cast<const char*>(&x)], [sizeof(x)] bytes *)
Definition object_bytes (size : nat) (x : Z) : list byte :=
  if big_endian then rev (le_bytes size x) else le_bytes size x.

Definition object_value (bs : list byte) : Z :=
  if big_endian then le_value (rev bs) else le_value bs.

(** ** writeFrequencyMap *)

Definition write_entry (pair : char * Z) : list byte :=
  let ch := fst pair in
  let freq := uint32_wrap (snd pair) in
  ch :: object_bytes 4 freq.

Definition writeFrequencyMap (freqMap : unordered_map Z) : list byte :=
  let mapSize := uint16_wrap (Z.of_nat (length freqMap)) in
  object_bytes 2 mapSize ++ flat_map write_entry (iterate freqMap).

(** ** ifstream

    The stream is the list of bytes not yet read.  [read n] hands out the
    next [n] bytes; when fewer remain the destination is left (partly)
    unwritten and every later use of it is undefined. *)

Definition ifstream := list byte.

Definition read (n : nat) (inFile : ifstream) : result (list byte * ifstream) :=
  if (n <=? length inFile)%nat
  then Ok (firstn n inFile, skipn n inFile)
  else Fault UninitializedRead.

(** ** readFrequencyMap *)

Fixpoint read_entries (count : nat) (freqMap : unordered_map Z) (inFile : ifstream)
  : result (unordered_map Z * ifstream) :=
  match count with
  | O => Ok (freqMap, inFile)
  | S count' =>
      '(chb, inFile1) <- read 1 inFile ;;
      '(freqb, inFile2) <- read 4 inFile1 ;;
      let ch := hd x00 chb in
      let freq := object_value freqb in
      read_entries count' (um_assign ch (int_wrap freq) freqMap) inFile2
  end.

Definition readFrequencyMap (inFile : ifstream)
  : result (unordered_map Z * ifstream) :=
  '(sizeb, inFile1) <- read 2 inFile ;;
  let mapSize := object_value sizeb in
  read_entries (Z.to_nat mapSize) [] inFile1.

(** ** writeEncodedData *)

(** [bitset<8>(byteString).to_ulong()]: the first character is the most
    significant bit. *)
Definition bitset_to_ulong (byteString : list bool) : Z :=
  fold_left (fun acc (b : bool) => 2 * acc + (if b then 1 else 0)) byteString 0.

Definition padding_for (encodedText : list bool) : Z :=
  let padding := uint8_wrap (8 - Z.of_nat (length encodedText) mod 8) in
  if padding =? 8 then 0 else padding.

(** [for (i = 0; i < paddedEncodedText.length(); i += 8)]; [s] is the text
    from position [i] on. *)
Fixpoint write_bytes (fuel : nat) (s : list bool) : list byte :=
  match fuel, s with
  | _, [] => []
  | O, _ => []
  | S fuel', _ =>
      let byteString := firstn 8 s in
      Z_to_byte (uint8_wrap (bitset_to_ulong byteString))
        :: write_bytes fuel' (skipn 8 s)
  end.

Definition writeEncodedData (encodedText : list bool) : list byte :=
  let padding := padding_for encodedText in
  let paddedEncodedText := encodedText ++ repeat false (Z.to_nat padding) in
  Z_to_byte padding :: write_bytes (length paddedEncodedText) paddedEncodedText.

(** ** readEncodedData *)

(** [bitset<8>(byte).to_string()] *)
Definition bitset_to_string (b : byte) : list bool :=
  map (fun i => Z.testbit (byte_to_Z b) i) [7; 6; 5; 4; 3; 2; 1; 0].

Definition readEncodedData (inFile : ifstream) : result (Z * list bool) :=
  '(padb, inFile1) <- read 1 inFile ;;
  let padding := byte_to_Z (hd x00 padb) in
  let encodedText := flat_map bitset_to_string inFile1 in
  if (0 <? padding) && negb (Nat.eqb (length encodedText) 0)
  then
    if padding <=? Z.of_nat (length encodedText)
    then Ok (padding, firstn (length encodedText - Z.to_nat padding) encodedText)
    else Fault EraseOutOfBounds
  else Ok (padding, encodedText).

(** ** compress *)

Definition code_table (text : list char) : result (unordered_map (list bool)) :=
  root <- buildHuffmanTree (buildFrequencyMap text) ;;
  Ok (generateCodes root [] []).

Definition compress (text : list char) : result (list byte) :=
  let freqMap := buildFrequencyMap text in
  root <- buildHuffmanTree freqMap ;;
  let huffmanCode := generateCodes root [] [] in
  encodedText <- encodeText text huffmanCode ;;
  Ok (writeFrequencyMap freqMap ++ writeEncodedData encodedText).

(** ** decompress *)

(** The decoding loop; the result is the sequence of characters put to
    the output file. *)
Fixpoint decode (root current : Node) (encodedText : list bool)
  : result (list char) :=
  match encodedText with
  | [] => Ok []
  | bit :: rest =>
      current' <- (if bit then get_right current else get_left current) ;;
      leaf <- is_leaf current' ;;
      if leaf
      then ch <- get_ch current' ;;
           out <- decode root root rest ;;
           Ok (ch :: out)
      else decode root current' rest
  end.

Definition decompress (inFile : ifstream) : result (list char) :=
  '(freqMap, inFile1) <- readFrequencyMap inFile ;;
  root <- buildHuffmanTree freqMap ;;
  '(padding, encodedText) <- readEncodedData inFile1 ;;
  decode root root encodedText.

End Program.

(** ** Two concrete platforms

    A queue kept as a list sorted by frequency: [push] puts the new node
    behind every node that [Compare] does not order after it, so that among
    nodes of equal frequency the one pushed first is at the top, which is
    what a binary heap does with two equal nodes. *)

Fixpoint sorted_push (x : Node) (h : list Node) : list Node :=
  match h with
  | [] => [x]
  | y :: h' => if Compare y x then x :: y :: h' else y :: sorted_push x h'
  end.

Definition sorted_top (h : list Node) : option Node :=
  match h with [] => None | x :: _ => Some x end.

Definition sorted_pop (h : list Node) : list Node := tl h.

(** A map that is iterated in the order of insertion. *)
Definition insertion_ordered : Platform := {|
  iterate := fun m => m;
  pq_push := sorted_push;
  pq_top := sorted_top;
  pq_pop := sorted_pop;
  big_endian := false
|}.

(** A chained hash table that links the node of a key whose bucket is
    empty at the head of its element list, as libstdc++ does: as long as
    the keys fall into different buckets the map is iterated in the reverse
    of the order of insertion. *)
Definition head_linked : Platform := {|
  iterate := fun m => rev m;
  pq_push := sorted_push;
  pq_top := sorted_top;
  pq_pop := sorted_pop;
  big_endian := false
|}.

(** ** Shapes of trees *)

(** Every node of the tree has no child or two children, and the pointer
    itself is not null. *)
Inductive full : Node -> Prop :=
| full_leaf : forall c f, full (new_Node c f nullptr nullptr)
| full_inner : forall c f l r, full l -> full r -> full (new_Node c f l r).

(** Every node that is not a leaf has two children, neither of them
    [nullptr]; as a check that can be run. *)
Fixpoint inner_nodes_have_two_children (p : Node) : bool :=
  match p with
  | nullptr => true
  | new_Node _ _ l r =>
      ((is_null l && is_null r) || (negb (is_null l) && negb (is_null r)))
      && inner_nodes_have_two_children l && inner_nodes_have_two_children r
  end.

Definition leaf_node (p : Node) : bool :=
  match p with
  | nullptr => false
  | new_Node _ _ l r => is_null l && is_null r
  end.

(** The characters at the leaves, left to right. *)
Fixpoint leaf_chars (p : Node) : list char :=
  match p with
  | nullptr => []
  | new_Node c _ l r =>
      if is_null l && is_null r then [c] else leaf_chars l ++ leaf_chars r
  end.

(** The root-to-leaf path of every leaf, left to right. *)
Fixpoint codes (p : Node) : list (char * list bool) :=
  match p with
  | nullptr => []
  | new_Node c _ l r =>
      if is_null l && is_null r then [(c, [])]
      else map (fun e => (fst e, false :: snd e)) (codes l)
           ++ map (fun e => (fst e, true :: snd e)) (codes r)
  end.

Definition is_prefix {A : Type} (s t : list A) : Prop := exists u, t = s ++ u.

Definition sum_counts (m : unordered_map Z) : Z :=
  fold_right Z.add 0 (map (@snd char Z) m).

(** ** Notions used by the statements *)

(** The number of occurrences of a character in a text. *)
Definition occurrences (text : list char) (c : char) : Z :=
  Z.of_nat (count_occ Byte.byte_eq_dec text c).

(** Every byte is one of the 256 values. *)
Definition all_bytes : list byte :=
  map (fun n => Z_to_byte (Z.of_nat n)) (seq 0 256).

(** The leaf that [buildHuffmanTree] allocates for an entry. *)
Definition leaf_of (pair : char * Z) : Node :=
  new_Node (fst pair) (snd pair) nullptr nullptr.

(** [root] is a tree without missing children whose leaves are the keys
    of [freqMap]. *)
Definition is_root_of (freqMap : unordered_map Z) (root : Node) : Prop :=
  full root /\ Permutation (leaf_chars root) (keys freqMap).

(** [huffmanCode[fst e] = str + snd e] *)
Definition assign_code (str : list bool) (huffmanCode : unordered_map (list bool))
           (e : char * list bool) : unordered_map (list bool) :=
  um_assign (fst e) (str ++ snd e) huffmanCode.

(** [freqMap[fst e] = snd e], the value converted to [int] *)
Definition reassign (freqMap : unordered_map Z) (e : char * Z) : unordered_map Z :=
  um_assign (fst e) (int_wrap (snd e)) freqMap.

(** [compress] followed by [decompress]; the tree that [decompress]
    builds for a container. *)
Definition round_trip {P : Platform} (text : list char) : result (list char) :=
  container <- compress text ;; decompress container.

Definition rebuilt_tree {P : Platform} (container : list byte) : result Node :=
  '(freqMap, _) <- readFrequencyMap container ;; buildHuffmanTree freqMap.

(** *** The layout in the words of the specification *)

(** A [width]-byte unsigned integer: the [width] low base-256 digits of
    the value, in the byte order of the host. *)
Definition unsigned_field {P : Platform} (width : nat) (value : Z) : list byte :=
  let digits := map (fun i => Z_to_byte (value / 256 ^ Z.of_nat i)) (seq 0 width) in
  if big_endian then rev digits else digits.

(** Byte [j] of the packed stream: bit [8 j + i] of the sequence is the
    bit of weight [2 ^ (7 - i)]. *)
Definition packed_byte (bits : list bool) (j : nat) : byte :=
  Z_to_byte
    (fold_right Z.add 0
       (map (fun i => if nth (8 * j + i) bits false then 2 ^ (7 - Z.of_nat i) else 0)
            (seq 0 8))).

Definition pack_msb_first (bits : list bool) : list byte :=
  map (packed_byte bits) (seq 0 (length bits / 8)).

Definition container_layout {P : Platform}
           (table : list (char * Z)) (bits : list bool) : list byte :=
  let padding := (8 - Z.of_nat (length bits) mod 8) mod 8 in
  unsigned_field 2 (Z.of_nat (length table))
  ++ flat_map (fun e => fst e :: unsigned_field 4 (snd e)) table
  ++ [Z_to_byte padding]
  ++ pack_msb_first (bits ++ repeat false (Z.to_nat padding)).

(** *** Two properties in the words of the specification *)

(** The table of a text, as the specification describes it. *)
Definition frequency_table_of (text : list char) (freqMap : unordered_map Z) : Prop :=
  (forall c, In c (keys freqMap) <-> In c text)
  /\ NoDup (keys freqMap)
  /\ Forall (fun e => 1 <= snd e) freqMap
  /\ (length freqMap <= 256)%nat
  /\ sum_counts freqMap = Z.of_nat (length text).

(** Decompression of a container without its last byte does not return
    normally. *)
Definition truncation_detected {P : Platform} (text : list char) : Prop :=
  forall container, compress text = Ok container ->
                    exists f, decompress (removelast container) = Fault f.

(** *** Further shapes and measures of trees *)

(** The leaves with their frequencies, left to right. *)
Fixpoint leaf_entries (p : Node) : list (char * Z) :=
  match p with
  | nullptr => []
  | new_Node c f l r =>
      if is_null l && is_null r then [(c, f)]
      else leaf_entries l ++ leaf_entries r
  end.

(** Every node that is not a leaf holds the character NUL and the sum,
    in [int], of the frequencies of its two children. *)
Fixpoint inner_nodes_sum_children (p : Node) : bool :=
  match p with
  | nullptr => true
  | new_Node c f l r =>
      (is_null l && is_null r)
      || (Byte.eqb c x00
          && (f =? int_wrap (freq_or_zero l + freq_or_zero r))
          && inner_nodes_sum_children l && inner_nodes_sum_children r)
  end.

(** The number of nodes that were allocated for the tree. *)
Fixpoint node_count (p : Node) : nat :=
  match p with
  | nullptr => O
  | new_Node _ _ l r => S (node_count l + node_count r)
  end.

(** A tree without missing children whose inner nodes hold these sums. *)
Definition weighted (p : Node) : Prop :=
  full p /\ inner_nodes_sum_children p = true.

(** Whether [huffmanCode.at(c)] finds an entry. *)
Definition has_code (huffmanCode : unordered_map (list bool)) (c : char) : bool :=
  match um_find c huffmanCode with Some _ => true | None => false end.

(** The number of bits that a table of frequencies costs with a table of
    codes: for each entry its frequency times the length of its code. *)
Definition encoded_bits (freqMap : unordered_map Z)
           (huffmanCode : unordered_map (list bool)) : Z :=
  fold_right Z.add 0
    (map (fun e => snd e * Z.of_nat (length (um_index (fst e) [] huffmanCode)))
         freqMap).

(** ** The program with its files: compress, decompress and main

    The functions [compress] and [decompress] above are the parts of the
    C++ functions of these names between reading the input file and writing
    the output file.  Here are the functions with their files and their
    messages.  A [World] holds the content of every file that an [ifstream]
    can open, tells which names an [ofstream] can open, and records what
    was written to [cout] and [cerr].  A file that was written can be
    opened for reading afterwards. *)

Inductive std_stream : Type := cout | cerr.

Record World : Type := {
  files : String.string -> option (list byte);
  creatable : String.string -> bool;
  console : list (std_stream * String.string)
}.

(** An [ofstream] opened on [name], written with [content] and closed. *)
Definition write_file (w : World) (name : String.string) (content : list byte)
  : World :=
  {| files := fun n => if String.eqb n name then Some content else files w n;
     creatable := creatable w;
     console := console w |}.

(** One statement [stream << ... ;] *)
Definition print (w : World) (s : std_stream) (message : String.string) : World :=
  {| files := files w;
     creatable := creatable w;
     console := console w ++ [(s, message)] |}.

(** The character of "\n" and of [endl]. *)
Definition newline : String.string :=
  String.String (Ascii.Ascii false true false true false false false false)
                String.EmptyString.

(** [compress(inputFileName, outputFileName)]: everything that can go
    wrong in [compress] happens before the output file is opened. *)
Definition compress_file {P : Platform}
           (inputFileName outputFileName : String.string) (w : World)
  : result World :=
  match files w inputFileName with
  | None => Ok (print w cerr (String.append "Error opening input file." newline))
  | Some text =>
      container <- compress text ;;
      if creatable w outputFileName
      then Ok (print (write_file w outputFileName container) cout
                     (String.append "File compressed successfully. Output file: "
                        (String.append outputFileName newline)))
      else Ok (print w cerr (String.append "Error opening output file." newline))
  end.

(** [decompress(inputFileName, outputFileName)]: the table, the tree and
    the bit stream are read before the output file is opened, the decoding
    loop runs after. *)
Definition decompress_file {P : Platform}
           (inputFileName outputFileName : String.string) (w : World)
  : result World :=
  match files w inputFileName with
  | None => Ok (print w cerr (String.append "Error opening input file." newline))
  | Some inFile =>
      '(freqMap, inFile1) <- readFrequencyMap inFile ;;
      root <- buildHuffmanTree freqMap ;;
      '(padding, encodedText) <- readEncodedData inFile1 ;;
      if creatable w outputFileName
      then out <- decode root root encodedText ;;
           Ok (print (write_file w outputFileName out) cout
                     (String.append "File decompressed successfully. Output file: "
                        (String.append outputFileName newline)))
      else Ok (print w cerr (String.append "Error opening output file." newline))
  end.

Definition usage (program : String.string) (w : World) : World :=
  let w1 := print w cerr
              (String.append "Usage: "
                 (String.append program
                    (String.append " -c|-d <input_file> <output_file>" newline))) in
  let w2 := print w1 cerr (String.append "Options:" newline) in
  let w3 := print w2 cerr
              (String.append "  -c    Compress the input file" newline) in
  print w3 cerr (String.append "  -d    Decompress the input file" newline).

(** [main(argc, argv)], [argv] being the list of its [argc] strings; the
    result is the exit status and the world that is left.  With no string
    at all [argv[0]] is a null pointer, which the usage message prints. *)
Definition main {P : Platform} (argv : list String.string) (w : World)
  : result (Z * World) :=
  match argv with
  | [_; mode; inputFileName; outputFileName] =>
      if String.eqb mode "-c"
      then w' <- compress_file inputFileName outputFileName w ;; Ok (0, w')
      else if String.eqb mode "-d"
      then w' <- decompress_file inputFileName outputFileName w ;; Ok (0, w')
      else Ok (1, print w cerr
                    (String.append
                       "Invalid option. Use -c to compress or -d to decompress."
                       newline))
  | [] => Fault NullDereference
  | program :: _ => Ok (1, usage program w)
  end.

(** What a run of [compress] or [decompress] with its files leaves: the
    files other than the output file are as before, nothing changes when
    the input file cannot be opened, and one message is added to the
    console. *)
Definition leaves_other_files (w w' : World) (inputFileName outputFileName : String.string)
  : Prop :=
  (forall n, creatable w' n = creatable w n)
  /\ (forall n, n <> outputFileName -> files w' n = files w n)
  /\ (files w inputFileName = None -> forall n, files w' n = files w n)
  /\ exists s message, console w' = console w ++ [(s, message)].

(** * Properties *)

(** ** Bytes and machine integers *)

Lemma byte_to_Z_range (b : byte) : 0 <= byte_to_Z b < 256.
Proof.
  unfold byte_to_Z. pose proof (Byte.to_N_bounded b) as H. lia.
Qed.

Lemma Z_to_byte_to_Z (b : byte) : Z_to_byte (byte_to_Z b) = b.
Proof.
  unfold Z_to_byte, byte_to_Z.
  rewrite Z.mod_small by (pose proof (byte_to_Z_range b); unfold byte_to_Z in *; lia).
  rewrite N2Z.id, Byte.of_to_N. reflexivity.
Qed.

Lemma byte_to_Z_to_byte (z : Z) : byte_to_Z (Z_to_byte z) = z mod 256.
Proof.
  unfold Z_to_byte, byte_to_Z.
  pose proof (Z.mod_pos_bound z 256 ltac:(lia)) as Hr.
  destruct (Byte.of_N (Z.to_N (z mod 256))) as [b|] eqn:E.
  - apply Byte.to_of_N in E. rewrite E. lia.
  - apply Byte.of_N_None_iff in E. lia.
Qed.

Lemma int_wrap_range (z : Z) : - 2 ^ 31 <= int_wrap z < 2 ^ 31.
Proof.
  unfold int_wrap. pose proof (Z.mod_pos_bound (z + 2 ^ 31) (2 ^ 32) ltac:(lia)). lia.
Qed.

Lemma int_wrap_small (z : Z) : - 2 ^ 31 <= z < 2 ^ 31 -> int_wrap z = z.
Proof.
  intros H. unfold int_wrap. rewrite Z.mod_small by lia. lia.
Qed.

Lemma int_wrap_uint32 (z : Z) : int_wrap (uint32_wrap z) = int_wrap z.
Proof.
  unfold int_wrap, uint32_wrap.
  rewrite Zplus_mod_idemp_l. reflexivity.
Qed.

Lemma int_wrap_succ (z : Z) : int_wrap (int_wrap z + 1) = int_wrap (z + 1).
Proof.
  unfold int_wrap.
  replace ((z + 2 ^ 31) mod 2 ^ 32 - 2 ^ 31 + 1 + 2 ^ 31)
    with ((z + 2 ^ 31) mod 2 ^ 32 + 1) by lia.
  rewrite Zplus_mod_idemp_l.
  replace (z + 1 + 2 ^ 31) with (z + 2 ^ 31 + 1) by lia. reflexivity.
Qed.

Lemma byte_eqb_refl (c : byte) : Byte.eqb c c = true.
Proof. apply Byte.byte_dec_lb. reflexivity. Qed.

Lemma byte_eqb_neq (c d : byte) : c <> d -> Byte.eqb c d = false.
Proof.
  intros H. destruct (Byte.eqb c d) eqn:E; [|reflexivity].
  apply Byte.byte_dec_bl in E. contradiction.
Qed.

Lemma byte_eqb_spec (c d : byte) : reflect (c = d) (Byte.eqb c d).
Proof.
  destruct (Byte.byte_eq_dec c d) as [->|N].
  - rewrite byte_eqb_refl. constructor. reflexivity.
  - rewrite (byte_eqb_neq N). constructor. exact N.
Qed.

(** ** std::unordered_map *)

Section UnorderedMapFacts.
Variable V : Type.
Implicit Types (m : unordered_map V) (k : char) (v : V).

Lemma um_find_assign_same k v m : um_find k (um_assign k v m) = Some v.
Proof.
  induction m as [|[k' v'] m IH]; simpl.
  - rewrite byte_eqb_refl. reflexivity.
  - destruct (Byte.eqb k k') eqn:E; simpl.
    + rewrite byte_eqb_refl. reflexivity.
    + rewrite E. exact IH.
Qed.

Lemma um_find_assign_other k k' v m :
  k <> k' -> um_find k' (um_assign k v m) = um_find k' m.
Proof.
  intros N. induction m as [|[k0 v0] m IH]; simpl.
  - rewrite byte_eqb_neq by congruence. reflexivity.
  - destruct (byte_eqb_spec k k0) as [->|N0]; simpl.
    + rewrite byte_eqb_neq by congruence. reflexivity.
    + rewrite IH. reflexivity.
Qed.

Lemma um_find_None k m : um_find k m = None <-> ~ In k (keys m).
Proof.
  induction m as [|[k0 v0] m IH]; simpl.
  - tauto.
  - destruct (byte_eqb_spec k k0) as [->|N0].
    + split; [discriminate | intros H; exfalso; apply H; now left].
    + rewrite IH. split; intros H; [intros [E|I]; [congruence|tauto] | tauto].
Qed.

Lemma um_find_Some_In k v m : um_find k m = Some v -> In (k, v) m.
Proof.
  induction m as [|[k0 v0] m IH]; simpl; [discriminate|].
  destruct (byte_eqb_spec k k0) as [->|N0].
  - intros [= ->]. now left.
  - intros H. right. auto.
Qed.

Lemma In_um_find k v m : NoDup (keys m) -> In (k, v) m -> um_find k m = Some v.
Proof.
  induction m as [|[k0 v0] m IH]; simpl; [tauto|].
  intros ND [E|I].
  - injection E as -> ->. rewrite byte_eqb_refl. reflexivity.
  - inversion ND as [|? ? NI ND']; subst.
    destruct (byte_eqb_spec k k0) as [->|N0].
    + exfalso. apply NI. change (In (fst (k0, v)) (map fst m)). now apply in_map.
    + auto.
Qed.

Lemma keys_assign k v m :
  keys (um_assign k v m)
  = match um_find k m with Some _ => keys m | None => keys m ++ [k] end.
Proof.
  induction m as [|[k0 v0] m IH]; simpl; [reflexivity|].
  destruct (byte_eqb_spec k k0) as [->|N0]; simpl; [reflexivity|].
  fold (keys (um_assign k v m)) (keys m).
  rewrite IH. destruct (um_find k m); reflexivity.
Qed.

Lemma NoDup_keys_assign k v m : NoDup (keys m) -> NoDup (keys (um_assign k v m)).
Proof.
  intros ND. rewrite keys_assign. destruct (um_find k m) eqn:E; [exact ND|].
  apply um_find_None in E.
  apply (Permutation_NoDup (l := k :: keys m)).
  - apply Permutation_cons_append.
  - constructor; assumption.
Qed.

Lemma um_assign_fresh k v m : um_find k m = None -> um_assign k v m = m ++ [(k, v)].
Proof.
  induction m as [|[k0 v0] m IH]; simpl; [reflexivity|].
  destruct (Byte.eqb k k0); [discriminate|]. intros H. rewrite IH by exact H. reflexivity.
Qed.

Lemma length_assign k v m :
  length (um_assign k v m)
  = match um_find k m with Some _ => length m | None => S (length m) end.
Proof.
  rewrite <- !(length_map (@fst char V)). fold (keys (um_assign k v m)) (keys m).
  rewrite keys_assign. destruct (um_find k m); [reflexivity|].
  rewrite length_app. simpl. lia.
Qed.

End UnorderedMapFacts.

Lemma sum_counts_assign k v (m : unordered_map Z) :
  sum_counts (um_assign k v m) = sum_counts m - um_index k 0 m + v.
Proof.
  unfold sum_counts, um_index. induction m as [|[k0 v0] m IH]; simpl; [lia|].
  destruct (Byte.eqb k k0); simpl; lia.
Qed.

Lemma all_bytes_complete (b : byte) : In b all_bytes.
Proof.
  unfold all_bytes. apply in_map_iff.
  exists (Z.to_nat (byte_to_Z b)). pose proof (byte_to_Z_range b). split.
  - rewrite Z2Nat.id by lia. apply Z_to_byte_to_Z.
  - apply in_seq. lia.
Qed.

Lemma NoDup_bytes_length (l : list byte) : NoDup l -> (length l <= 256)%nat.
Proof.
  intros ND.
  change 256%nat with (length all_bytes).
  apply NoDup_incl_length; [exact ND|]. intros b _. apply all_bytes_complete.
Qed.

(** ** buildFrequencyMap *)

Lemma occurrences_snoc text d c :
  occurrences (text ++ [d]) c
  = occurrences text c + (if Byte.eqb d c then 1 else 0).
Proof.
  unfold occurrences. rewrite count_occ_app. cbn [count_occ].
  destruct (Byte.byte_eq_dec d c) as [E|N].
  - rewrite E, byte_eqb_refl. lia.
  - rewrite byte_eqb_neq by exact N. lia.
Qed.

Lemma occurrences_bounds text c :
  0 <= occurrences text c <= Z.of_nat (length text).
Proof.
  unfold occurrences. pose proof (count_occ_bound Byte.byte_eq_dec c text). lia.
Qed.

Lemma occurrences_pos text c : 0 < occurrences text c <-> In c text.
Proof.
  unfold occurrences. pose proof (count_occ_In Byte.byte_eq_dec text c) as H.
  split; intros I; [apply H; lia | apply H in I; lia].
Qed.

Lemma buildFrequencyMap_snoc text c :
  buildFrequencyMap (text ++ [c]) = increment (buildFrequencyMap text) c.
Proof. unfold buildFrequencyMap. rewrite fold_left_app. reflexivity. Qed.

(** The entry of a character is its number of occurrences, counted in
    [int]. *)
Lemma buildFrequencyMap_find text c :
  um_find c (buildFrequencyMap text)
  = if occurrences text c =? 0 then None
    else Some (int_wrap (occurrences text c)).
Proof.
  induction text as [|d text IH] using rev_ind; [reflexivity|].
  rewrite buildFrequencyMap_snoc, occurrences_snoc. unfold increment.
  pose proof (occurrences_bounds text c) as Hb.
  destruct (byte_eqb_spec d c) as [->|N].
  - rewrite um_find_assign_same. unfold um_index. rewrite IH.
    destruct (occurrences text c =? 0) eqn:E.
    + apply Z.eqb_eq in E. rewrite E. reflexivity.
    + destruct (occurrences text c + 1 =? 0) eqn:E'; [apply Z.eqb_eq in E'; lia|].
      rewrite int_wrap_succ. reflexivity.
  - rewrite um_find_assign_other by exact N. rewrite Z.add_0_r. exact IH.
Qed.

Lemma buildFrequencyMap_NoDup text : NoDup (keys (buildFrequencyMap text)).
Proof.
  induction text as [|d text IH] using rev_ind; [constructor|].
  rewrite buildFrequencyMap_snoc. apply NoDup_keys_assign. exact IH.
Qed.

Lemma buildFrequencyMap_keys text c :
  In c (keys (buildFrequencyMap text)) <-> In c text.
Proof.
  rewrite <- (occurrences_pos text c).
  pose proof (um_find_None c (buildFrequencyMap text)) as H.
  rewrite buildFrequencyMap_find in H.
  pose proof (occurrences_bounds text c).
  destruct (occurrences text c =? 0) eqn:E.
  - apply Z.eqb_eq in E. split; [intros I; exfalso | intros; lia].
    exact (proj1 H eq_refl I).
  - apply Z.eqb_neq in E. split; [intros; lia | intros _].
    destruct (in_dec Byte.byte_eq_dec c (keys (buildFrequencyMap text))) as [I|NI];
      [assumption|].
    apply H in NI. discriminate.
Qed.

Lemma buildFrequencyMap_entry text c v :
  In (c, v) (buildFrequencyMap text) ->
  0 < occurrences text c /\ v = int_wrap (occurrences text c).
Proof.
  intros I. apply In_um_find in I; [|apply buildFrequencyMap_NoDup].
  rewrite buildFrequencyMap_find in I.
  pose proof (occurrences_bounds text c).
  destruct (occurrences text c =? 0) eqn:E; [discriminate|].
  apply Z.eqb_neq in E. injection I as <-. split; [lia | reflexivity].
Qed.

Lemma buildFrequencyMap_int text :
  Forall (fun e => int_wrap (snd e) = snd e) (buildFrequencyMap text).
Proof.
  apply Forall_forall. intros [c v] I. simpl.
  apply buildFrequencyMap_entry in I. destruct I as [_ ->].
  apply int_wrap_small, int_wrap_range.
Qed.

Lemma buildFrequencyMap_length text :
  (length (buildFrequencyMap text) <= 256)%nat.
Proof.
  rewrite <- (length_map (@fst char Z)).
  apply NoDup_bytes_length, buildFrequencyMap_NoDup.
Qed.

Lemma buildFrequencyMap_sum text :
  (forall c, occurrences text c < 2 ^ 31) ->
  sum_counts (buildFrequencyMap text) = Z.of_nat (length text).
Proof.
  induction text as [|d text IH] using rev_ind; [reflexivity|].
  rewrite length_app, buildFrequencyMap_snoc. simpl length. intros Hocc.
  assert (Hocc' : forall c, occurrences text c < 2 ^ 31).
  { intros c. specialize (Hocc c). rewrite occurrences_snoc in Hocc.
    destruct (Byte.eqb d c); lia. }
  specialize (Hocc d). rewrite occurrences_snoc, byte_eqb_refl in Hocc.
  unfold increment. rewrite sum_counts_assign, IH by exact Hocc'.
  unfold um_index. rewrite buildFrequencyMap_find.
  pose proof (occurrences_bounds text d) as Hb.
  destruct (occurrences text d =? 0) eqn:E.
  - rewrite int_wrap_small by lia. lia.
  - apply Z.eqb_neq in E. rewrite int_wrap_succ, !int_wrap_small by lia. lia.
Qed.

(** A buffer of [n] equal bytes: the one counter is [n] counted in
    [int]. *)
Lemma increment_repeat c (n : nat) v :
  fold_left increment (repeat c n) [(c, int_wrap v)]
  = [(c, int_wrap (v + Z.of_nat n))].
Proof.
  revert v. induction n as [|n IH]; intros v.
  - simpl. rewrite Z.add_0_r. reflexivity.
  - cbn [repeat fold_left]. unfold increment at 2, um_index.
    cbn [um_find um_assign]. rewrite byte_eqb_refl.
    rewrite int_wrap_succ, IH. do 3 f_equal. lia.
Qed.

Lemma buildFrequencyMap_repeat c (z : Z) :
  0 < z -> buildFrequencyMap (repeat c (Z.to_nat z)) = [(c, int_wrap z)].
Proof.
  intros Hz. destruct (Z.to_nat z) as [|n] eqn:E; [lia|].
  unfold buildFrequencyMap. cbn [repeat fold_left].
  change (increment [] c) with [(c, int_wrap 1)].
  rewrite increment_repeat. do 3 f_equal. lia.
Qed.

(** ** The two platforms are lawful *)

Lemma sorted_push_perm x h : Permutation (sorted_push x h) (x :: h).
Proof.
  induction h as [|y h IH]; simpl.
  - apply Permutation_refl.
  - destruct (Compare y x).
    + apply Permutation_refl.
    + eapply perm_trans; [apply perm_skip, IH | apply perm_swap].
Qed.

Lemma sorted_top_pop (h : list Node) :
  h <> [] -> exists x, sorted_top h = Some x /\ Permutation h (x :: sorted_pop h).
Proof.
  destruct h as [|x h]; [congruence|]. intros _.
  exists x. split; [reflexivity | apply Permutation_refl].
Qed.

#[export] Instance insertion_ordered_lawful : Lawful insertion_ordered.
Proof.
  constructor.
  - intros m. apply Permutation_refl.
  - exact sorted_push_perm.
  - reflexivity.
  - exact sorted_top_pop.
Qed.

#[export] Instance head_linked_lawful : Lawful head_linked.
Proof.
  constructor.
  - intros m. apply Permutation_sym, Permutation_rev.
  - exact sorted_push_perm.
  - reflexivity.
  - exact sorted_top_pop.
Qed.

(** ** Trees *)

Lemma full_not_null p : full p -> is_null p = false.
Proof. destruct 1; reflexivity. Qed.

Lemma full_two_children p : full p -> inner_nodes_have_two_children p = true.
Proof.
  induction 1 as [c f|c f l r Fl IHl Fr IHr]; simpl; [reflexivity|].
  rewrite (full_not_null Fl), (full_not_null Fr), IHl, IHr. reflexivity.
Qed.

Lemma two_children_full p :
  is_null p = false -> inner_nodes_have_two_children p = true -> full p.
Proof.
  induction p as [|c f l IHl r IHr]; simpl; [discriminate|]. intros _ H.
  apply andb_prop in H. destruct H as [H Hr].
  apply andb_prop in H. destruct H as [He Hl].
  destruct l as [|cl fl ll lr], r as [|cr fr rl rr]; try discriminate.
  - constructor.
  - constructor; [apply IHl | apply IHr]; auto.
Qed.

Lemma full_leaf_chars_inner c f l r :
  full l -> full r ->
  leaf_chars (new_Node c f l r) = leaf_chars l ++ leaf_chars r.
Proof.
  intros Fl Fr. simpl. rewrite (full_not_null Fl). reflexivity.
Qed.

Lemma full_leaf_chars_nonempty p : full p -> leaf_chars p <> [].
Proof.
  induction 1 as [c f|c f l r Fl IHl Fr IHr].
  - discriminate.
  - rewrite full_leaf_chars_inner by assumption.
    destruct (leaf_chars l); [congruence | discriminate].
Qed.

Lemma codes_leaf_chars p : map fst (codes p) = leaf_chars p.
Proof.
  induction p as [|c f l IHl r IHr]; simpl; [reflexivity|].
  destruct (is_null l && is_null r); [reflexivity|].
  rewrite map_app, !map_map. simpl. rewrite <- IHl, <- IHr. reflexivity.
Qed.

(** ** buildHuffmanTree on a lawful platform *)

Section TreeBuilding.
Context {P : Platform} {L : Lawful P}.

Lemma top_nil : top [] = Fault EmptyTop.
Proof. unfold top. rewrite pq_top_nil. reflexivity. Qed.

Lemma top_nonempty (h : list Node) :
  h <> [] -> exists x, top h = Ok x /\ Permutation h (x :: pq_pop h).
Proof.
  intros N. destruct (pq_top_pop N) as [x [E Hp]].
  exists x. unfold top. rewrite E. auto.
Qed.

Lemma top_singleton (x : Node) : top [x] = Ok x.
Proof.
  destruct (@top_nonempty [x]) as [y [E Hp]]; [discriminate|].
  rewrite E. assert (Hl := Permutation_length Hp). simpl in Hl.
  destruct (pq_pop [x]); [|discriminate].
  apply Permutation_length_1 in Hp. congruence.
Qed.

Lemma push_fold_perm (l : list (char * Z)) (acc : list Node) :
  Permutation
    (fold_left (fun minHeap pair => pq_push (leaf_of pair) minHeap) l acc)
    (map leaf_of l ++ acc).
Proof.
  revert acc. induction l as [|p l IH]; intros acc; simpl.
  - apply Permutation_refl.
  - eapply perm_trans; [apply IH|].
    eapply perm_trans; [apply Permutation_app_head, pq_push_perm|].
    apply Permutation_sym, Permutation_middle.
Qed.

Lemma push_leaves_perm (freqMap : unordered_map Z) :
  Permutation (push_leaves freqMap) (map leaf_of freqMap).
Proof.
  unfold push_leaves. eapply perm_trans; [apply push_fold_perm|].
  rewrite app_nil_r. apply Permutation_map, iterate_perm.
Qed.

Lemma push_leaves_length freqMap : length (push_leaves freqMap) = length freqMap.
Proof.
  rewrite (Permutation_length (push_leaves_perm freqMap)). apply length_map.
Qed.

Lemma leaf_of_chars (freqMap : unordered_map Z) :
  flat_map leaf_chars (map leaf_of freqMap) = keys freqMap.
Proof.
  induction freqMap as [|[c f] m IH]; simpl; [reflexivity|].
  rewrite IH. reflexivity.
Qed.

Lemma push_leaves_chars freqMap :
  Permutation (flat_map leaf_chars (push_leaves freqMap)) (keys freqMap).
Proof.
  rewrite <- leaf_of_chars. apply Permutation_flat_map, push_leaves_perm.
Qed.

Lemma push_leaves_full freqMap : Forall full (push_leaves freqMap).
Proof.
  eapply Permutation_Forall; [apply Permutation_sym, push_leaves_perm|].
  apply Forall_forall. intros x I. apply in_map_iff in I.
  destruct I as [[c f] [<- _]]. constructor.
Qed.

Lemma full_get_freq p : full p -> exists f, get_freq p = Ok f.
Proof. destruct 1; eexists; reflexivity. Qed.

(** The loop ends by its own condition, with one tree made of the trees
    it started with. *)
Lemma merge_loop_spec (fuel : nat) (h : list Node) :
  (length h <= S fuel)%nat -> Forall full h ->
  exists h', merge_loop fuel h = Ok h'
             /\ length h' = Nat.min 1 (length h)
             /\ Forall full h'
             /\ Permutation (flat_map leaf_chars h') (flat_map leaf_chars h).
Proof.
  revert h. induction fuel as [|fuel IH]; intros h Hlen Hfull.
  - exists h. cbn [merge_loop]. destruct (length h <=? 1)%nat eqn:E.
    + apply Nat.leb_le in E. repeat split; auto; lia.
    + apply Nat.leb_gt in E. lia.
  - cbn [merge_loop]. destruct (length h <=? 1)%nat eqn:E.
    + apply Nat.leb_le in E. exists h. repeat split; auto; lia.
    + apply Nat.leb_gt in E.
      destruct (@top_nonempty h) as [x1 [E1 P1]];
        [destruct h; [simpl in E; lia | discriminate]|].
      assert (L1 := Permutation_length P1). simpl in L1.
      destruct (@top_nonempty (pq_pop h)) as [x2 [E2 P2]];
        [destruct (pq_pop h); [simpl in L1; lia | discriminate]|].
      assert (L2 := Permutation_length P2). simpl in L2.
      assert (F1 : Forall full (x1 :: pq_pop h))
        by (eapply Permutation_Forall; eassumption).
      inversion F1 as [|? ? Fx1 F1']; subst.
      assert (F2 : Forall full (x2 :: pq_pop (pq_pop h)))
        by (eapply Permutation_Forall; eassumption).
      inversion F2 as [|? ? Fx2 F2']; subst.
      destruct (full_get_freq Fx1) as [f1 Ef1].
      destruct (full_get_freq Fx2) as [f2 Ef2].
      rewrite E1. cbn [bind]. rewrite E2. cbn [bind].
      rewrite Ef1. cbn [bind]. rewrite Ef2. cbn [bind].
      set (merged := new_Node x00 (int_wrap (f1 + f2)) x1 x2).
      set (h2 := pq_pop (pq_pop h)) in *.
      assert (Lp := Permutation_length (pq_push_perm merged h2)). simpl in Lp.
      destruct (IH (pq_push merged h2)) as [h' [Eh [Lh [Fh Ph]]]].
      * lia.
      * eapply Permutation_Forall; [apply Permutation_sym, pq_push_perm|].
        constructor; [constructor; assumption | assumption].
      * exists h'. split; [exact Eh|]. split; [lia|]. split; [exact Fh|].
        eapply perm_trans; [exact Ph|].
        eapply perm_trans; [apply Permutation_flat_map, pq_push_perm|].
        apply Permutation_sym.
        eapply perm_trans; [apply Permutation_flat_map, P1|].
        cbn [flat_map].
        eapply perm_trans;
          [apply Permutation_app_head, Permutation_flat_map, P2|].
        cbn [flat_map]. unfold merged.
        rewrite full_leaf_chars_inner by assumption.
        rewrite <- app_assoc. apply Permutation_refl.
Qed.

(** With at least one entry the builder returns a tree whose leaves are
    the keys of the table. *)
Lemma buildHuffmanTree_spec (freqMap : unordered_map Z) :
  freqMap <> [] ->
  exists root, buildHuffmanTree freqMap = Ok root /\ is_root_of freqMap root.
Proof.
  intros N. unfold buildHuffmanTree.
  destruct (@merge_loop_spec (length (push_leaves freqMap)) (push_leaves freqMap))
    as [h' [Eh [Lh [Fh Ph]]]]; [lia | apply push_leaves_full|].
  rewrite Eh. cbn [bind].
  rewrite push_leaves_length in Lh.
  destruct freqMap as [|e m]; [congruence|]. simpl in Lh.
  destruct h' as [|root [|? ?]]; try discriminate.
  exists root. rewrite top_singleton. split; [reflexivity|].
  inversion Fh; subst. split; [assumption|].
  simpl in Ph. rewrite app_nil_r in Ph.
  eapply perm_trans; [exact Ph | apply push_leaves_chars].
Qed.

Lemma buildHuffmanTree_nil : buildHuffmanTree [] = Fault EmptyTop.
Proof.
  unfold buildHuffmanTree.
  assert (E : push_leaves [] = []).
  { apply length_zero_iff_nil. rewrite push_leaves_length. reflexivity. }
  rewrite E. simpl. apply top_nil.
Qed.

(** The builder looks at the table only through its iteration. *)
Lemma buildHuffmanTree_iterate (m1 m2 : unordered_map Z) :
  iterate m1 = iterate m2 -> buildHuffmanTree m1 = buildHuffmanTree m2.
Proof.
  intros E. unfold buildHuffmanTree, push_leaves. rewrite E. reflexivity.
Qed.

End TreeBuilding.

(** ** generateCodes *)

Lemma fold_assign_map (b : bool) str (l : list (char * list bool)) hc :
  fold_left (assign_code str) (map (fun e => (fst e, b :: snd e)) l) hc
  = fold_left (assign_code (str ++ [b])) l hc.
Proof.
  revert hc. induction l as [|e l IH]; intros hc; simpl; [reflexivity|].
  rewrite IH. unfold assign_code at 2 4. simpl. rewrite <- app_assoc. reflexivity.
Qed.

(** The walk assigns to every leaf, from left to right, the path that
    leads to it. *)
Lemma generateCodes_fold root str hc :
  generateCodes root str hc = fold_left (assign_code str) (codes root) hc.
Proof.
  revert str hc. induction root as [|c f l IHl r IHr]; intros str hc; simpl;
    [reflexivity|].
  destruct (is_null l && is_null r) eqn:E.
  - apply andb_prop in E. destruct E as [El Er].
    destruct l; [|discriminate]. destruct r; [|discriminate].
    simpl. unfold assign_code. simpl. rewrite app_nil_r. reflexivity.
  - rewrite fold_left_app, !fold_assign_map, IHl, IHr. reflexivity.
Qed.

Lemma fold_assign_other str (l : list (char * list bool)) hc k :
  ~ In k (map fst l) ->
  um_find k (fold_left (assign_code str) l hc) = um_find k hc.
Proof.
  revert hc. induction l as [|e l IH]; intros hc NI; simpl; [reflexivity|].
  simpl in NI. rewrite IH by tauto. unfold assign_code.
  apply um_find_assign_other. intros E. apply NI. now left.
Qed.

Lemma fold_assign_find str (l : list (char * list bool)) hc k s :
  NoDup (map fst l) -> In (k, s) l ->
  um_find k (fold_left (assign_code str) l hc) = Some (str ++ s).
Proof.
  revert hc. induction l as [|e l IH]; intros hc ND I; simpl; [contradiction|].
  simpl in ND. inversion ND as [|? ? NI ND']; subst.
  destruct I as [->|I].
  - rewrite fold_assign_other by exact NI. unfold assign_code. simpl.
    apply um_find_assign_same.
  - apply IH; assumption.
Qed.

Lemma fold_assign_keys str (l : list (char * list bool)) hc :
  NoDup (keys hc) -> NoDup (keys (fold_left (assign_code str) l hc)).
Proof.
  revert hc. induction l as [|e l IH]; intros hc ND; simpl; [exact ND|].
  apply IH. unfold assign_code. apply NoDup_keys_assign. exact ND.
Qed.

(** The table made from a tree with distinct leaves holds exactly the
    paths of the tree. *)
Lemma generateCodes_find root k s :
  NoDup (leaf_chars root) ->
  (um_find k (generateCodes root [] []) = Some s <-> In (k, s) (codes root)).
Proof.
  intros ND. rewrite generateCodes_fold. rewrite <- codes_leaf_chars in ND.
  split.
  - intros H.
    destruct (in_dec Byte.byte_eq_dec k (map fst (codes root))) as [I|NI].
    + apply in_map_iff in I. destruct I as [[k' s'] [E I]]. simpl in E. subst k'.
      rewrite (@fold_assign_find [] _ [] _ _ ND I) in H. simpl in H.
      injection H as <-. exact I.
    + rewrite fold_assign_other in H by exact NI. discriminate.
  - intros I. apply (@fold_assign_find [] _ [] _ _ ND I).
Qed.

Lemma generateCodes_missing root k :
  ~ In k (leaf_chars root) -> um_find k (generateCodes root [] []) = None.
Proof.
  intros NI. rewrite generateCodes_fold, fold_assign_other; [reflexivity|].
  rewrite codes_leaf_chars. exact NI.
Qed.

Lemma codes_inner c f l r :
  full l -> full r ->
  codes (new_Node c f l r)
  = map (fun e => (fst e, false :: snd e)) (codes l)
    ++ map (fun e => (fst e, true :: snd e)) (codes r).
Proof. intros Fl Fr. simpl. rewrite (full_not_null Fl). reflexivity. Qed.

Lemma is_prefix_cons b1 b2 (s1 s2 : list bool) :
  is_prefix (b1 :: s1) (b2 :: s2) -> b1 = b2 /\ is_prefix s1 s2.
Proof.
  intros [u E]. simpl in E. injection E as E1 E2. split; [congruence|].
  exists u. exact E2.
Qed.

(** No path of a tree begins another one: the code is prefix-free. *)
Lemma codes_prefix_free root :
  full root -> NoDup (leaf_chars root) ->
  forall k1 s1 k2 s2,
    In (k1, s1) (codes root) -> In (k2, s2) (codes root) ->
    is_prefix s1 s2 -> k1 = k2.
Proof.
  induction 1 as [c f|c f l r Fl IHl Fr IHr]; intros ND k1 s1 k2 s2 I1 I2 Hp.
  - simpl in I1, I2. destruct I1 as [E1|[]], I2 as [E2|[]]. congruence.
  - rewrite full_leaf_chars_inner in ND by assumption.
    rewrite codes_inner in I1, I2 by assumption.
    apply in_app_or in I1. apply in_app_or in I2.
    destruct I1 as [I1|I1], I2 as [I2|I2];
      apply in_map_iff in I1; apply in_map_iff in I2;
      destruct I1 as [[k1' s1'] [E1 I1]]; destruct I2 as [[k2' s2'] [E2 I2]];
      simpl in E1, E2; injection E1 as <- <-; injection E2 as <- <-;
      apply is_prefix_cons in Hp; destruct Hp as [Eb Hp]; try discriminate.
    + apply (IHl (NoDup_app_remove_r _ _ ND) k1' s1' k2' s2' I1 I2 Hp).
    + apply (IHr (NoDup_app_remove_l _ _ ND) k1' s1' k2' s2' I1 I2 Hp).
Qed.

Lemma codes_inner_nonempty root k s :
  full root -> leaf_node root = false -> In (k, s) (codes root) ->
  (1 <= length s)%nat.
Proof.
  intros F NL I. destruct F as [c f|c f l r Fl Fr]; [discriminate|].
  rewrite codes_inner in I by assumption.
  apply in_app_or in I. destruct I as [I|I]; apply in_map_iff in I;
    destruct I as [[k' s'] [E _]]; injection E as _ <-; simpl; lia.
Qed.

Lemma root_of_two_is_inner (freqMap : unordered_map Z) root :
  is_root_of freqMap root -> (2 <= length freqMap)%nat -> leaf_node root = false.
Proof.
  intros [F Hp] Hl. apply Permutation_length in Hp.
  unfold keys in Hp. rewrite length_map in Hp.
  destruct F as [c f|c f l r Fl Fr]; simpl in *; [lia|].
  rewrite (full_not_null Fl). reflexivity.
Qed.

(** ** The decoding loop *)

Lemma full_is_leaf p : full p -> is_leaf p = Ok (leaf_node p).
Proof. destruct 1; reflexivity. Qed.

Lemma full_leaf_get_ch p :
  full p -> leaf_node p = true -> exists c, get_ch p = Ok c /\ codes p = [(c, [])].
Proof.
  destruct 1 as [c f|c f l r Fl Fr]; intros E.
  - exists c. split; reflexivity.
  - simpl in E. rewrite (full_not_null Fl) in E. discriminate.
Qed.

Section Decoding.
Variable root : Node.
Hypothesis root_full : full root.
Hypothesis root_inner : leaf_node root = false.

(** From an inner node of a tree without missing children, every bit
    leads to a node: the loop never dereferences [nullptr]. *)
Lemma decode_total (encodedText : list bool) :
  forall current, full current -> leaf_node current = false ->
  exists out, decode root current encodedText = Ok out.
Proof.
  induction encodedText as [|bit rest IH]; intros current F NL.
  - exists []. reflexivity.
  - destruct F as [c f|c f l r Fl Fr]; [discriminate|].
    cbn [decode].
    assert (Hstep : forall n, full n ->
              exists out,
                (leaf <- is_leaf n ;;
                 if leaf
                 then ch <- get_ch n ;; out <- decode root root rest ;; Ok (ch :: out)
                 else decode root n rest) = Ok out).
    { intros n Fn. rewrite (full_is_leaf Fn). cbn [bind].
      destruct (leaf_node n) eqn:E.
      - destruct (full_leaf_get_ch Fn E) as [ch [-> _]]. cbn [bind].
        destruct (IH root root_full root_inner) as [out ->].
        exists (ch :: out). reflexivity.
      - apply IH; assumption. }
    destruct bit; cbn [get_left get_right bind]; apply Hstep; assumption.
Qed.

(** Reading the path of a leaf from the node where the path starts puts
    the character of the leaf and goes back to the root. *)
Lemma decode_code current :
  full current -> leaf_node current = false ->
  forall k s rest, In (k, s) (codes current) ->
  decode root current (s ++ rest)
  = (out <- decode root root rest ;; Ok (k :: out)).
Proof.
  induction 1 as [c f|c f l r Fl IHl Fr IHr]; intros NL k s rest I;
    [discriminate|].
  rewrite codes_inner in I by assumption.
  apply in_app_or in I.
  destruct I as [I|I]; apply in_map_iff in I;
    destruct I as [[k' s'] [E I]]; simpl in E; injection E as -> <-;
    cbn [app decode get_left get_right bind].
  - rewrite (full_is_leaf Fl). cbn [bind]. destruct (leaf_node l) eqn:El.
    + destruct (full_leaf_get_ch Fl El) as [ch [-> Ec]]. rewrite Ec in I.
      destruct I as [E|[]]. injection E as -> <-. reflexivity.
    + apply IHl; auto.
  - rewrite (full_is_leaf Fr). cbn [bind]. destruct (leaf_node r) eqn:Er.
    + destruct (full_leaf_get_ch Fr Er) as [ch [-> Ec]]. rewrite Ec in I.
      destruct I as [E|[]]. injection E as -> <-. reflexivity.
    + apply IHr; auto.
Qed.

(** Reading only the beginning of a path puts nothing. *)
Lemma decode_partial current :
  full current -> leaf_node current = false ->
  forall k q u, u <> [] -> In (k, q ++ u) (codes current) ->
  decode root current q = Ok [].
Proof.
  induction 1 as [c f|c f l r Fl IHl Fr IHr]; intros NL k q u Nu I;
    [discriminate|].
  destruct q as [|bit q]; [reflexivity|].
  rewrite codes_inner in I by assumption.
  apply in_app_or in I.
  destruct I as [I|I]; apply in_map_iff in I;
    destruct I as [[k' s'] [E I]]; simpl in E; injection E as -> <- ->;
    cbn [decode get_left get_right bind].
  - rewrite (full_is_leaf Fl). cbn [bind]. destruct (leaf_node l) eqn:El.
    + destruct (full_leaf_get_ch Fl El) as [ch [_ Ec]]. rewrite Ec in I.
      destruct I as [E|[]]. injection E as _ E.
      symmetry in E. apply app_eq_nil in E. tauto.
    + eapply IHl; eauto.
  - rewrite (full_is_leaf Fr). cbn [bind]. destruct (leaf_node r) eqn:Er.
    + destruct (full_leaf_get_ch Fr Er) as [ch [_ Ec]]. rewrite Ec in I.
      destruct I as [E|[]]. injection E as _ E.
      symmetry in E. apply app_eq_nil in E. tauto.
    + eapply IHr; eauto.
Qed.

Variable huffmanCode : unordered_map (list bool).
Hypothesis table_of_root :
  forall c s, um_find c huffmanCode = Some s -> In (c, s) (codes root).

Lemma encodeText_inv ch text enc :
  encodeText (ch :: text) huffmanCode = Ok enc ->
  exists code rest, um_find ch huffmanCode = Some code
                    /\ encodeText text huffmanCode = Ok rest
                    /\ enc = code ++ rest.
Proof.
  cbn [encodeText]. unfold um_at.
  destruct (um_find ch huffmanCode) as [code|]; cbn [bind]; [|discriminate].
  destruct (encodeText text huffmanCode) as [rest|]; cbn [bind]; [|discriminate].
  intros [= <-]. eauto.
Qed.

(** Decoding the encoded text gives the text back. *)
Lemma decode_encodeText text :
  forall enc, encodeText text huffmanCode = Ok enc ->
  decode root root enc = Ok text.
Proof.
  induction text as [|ch text IH]; intros enc E.
  - injection E as <-. reflexivity.
  - apply encodeText_inv in E. destruct E as [code [rest [Ec [Er ->]]]].
    rewrite (decode_code root_full root_inner _ _ rest (table_of_root _ Ec)).
    rewrite (IH _ Er). reflexivity.
Qed.

(** Decoding a proper beginning of the encoded text gives a proper
    beginning of the text. *)
Lemma decode_truncated text :
  forall enc q w, encodeText text huffmanCode = Ok enc ->
  enc = q ++ w -> w <> [] ->
  exists out, decode root root q = Ok out
              /\ is_prefix out text /\ (length out < length text)%nat.
Proof.
  induction text as [|ch text IH]; intros enc q w E Eq Nw.
  - injection E as <-. symmetry in Eq. apply app_eq_nil in Eq. tauto.
  - apply encodeText_inv in E. destruct E as [code [rest [Ec [Er ->]]]].
    symmetry in Eq. apply app_eq_app in Eq. destruct Eq as [m [[E1 E2]|[E1 E2]]].
    + destruct m as [|b m].
      * rewrite app_nil_r in E1. subst q. simpl in E2. subst rest.
        destruct (IH _ [] w Er eq_refl Nw) as [out [Ed [Hp Hl]]].
        rewrite <- (app_nil_r code).
        rewrite (decode_code root_full root_inner _ _ [] (table_of_root _ Ec)).
        rewrite Ed. cbn [bind]. exists (ch :: out). split; [reflexivity|].
        split; [|simpl; lia]. destruct Hp as [u ->]. exists u. reflexivity.
      * subst q.
        destruct (IH _ (b :: m) w Er E2 Nw) as [out [Ed [Hp Hl]]].
        rewrite (decode_code root_full root_inner _ _ (b :: m) (table_of_root _ Ec)).
        rewrite Ed. cbn [bind]. exists (ch :: out). split; [reflexivity|].
        split; [|simpl; lia]. destruct Hp as [u ->]. exists u. reflexivity.
    + destruct m as [|b m].
      * rewrite app_nil_r in E1. subst code. simpl in E2. subst rest.
        destruct (IH _ [] w Er eq_refl Nw) as [out [Ed [Hp Hl]]].
        rewrite <- (app_nil_r q).
        rewrite (decode_code root_full root_inner _ _ [] (table_of_root _ Ec)).
        rewrite Ed. cbn [bind]. exists (ch :: out). split; [reflexivity|].
        split; [|simpl; lia]. destruct Hp as [u ->]. exists u. reflexivity.
      * subst code. exists []. split.
        -- apply (@decode_partial root root_full root_inner ch q (b :: m));
             [discriminate | apply table_of_root, Ec].
        -- split; [exists (ch :: text); reflexivity | simpl; lia].
Qed.

End Decoding.

(** ** The container: integers, the table, the bit stream *)

Lemma le_bytes_length n z : length (le_bytes n z) = n.
Proof. revert z. induction n; intros z; simpl; [reflexivity | now rewrite IHn]. Qed.

Lemma le_value_le_bytes n z : le_value (le_bytes n z) = z mod 256 ^ Z.of_nat n.
Proof.
  revert z. induction n as [|n IH]; intros z.
  - simpl. rewrite Z.mod_1_r. reflexivity.
  - cbn [le_bytes le_value]. rewrite byte_to_Z_to_byte, IH.
    rewrite Nat2Z.inj_succ, Z.pow_succ_r by lia.
    rewrite Z.rem_mul_r by lia. reflexivity.
Qed.

Section Container.
Context {P : Platform}.

Lemma object_bytes_length n z : length (object_bytes n z) = n.
Proof.
  unfold object_bytes. destruct big_endian;
    [rewrite length_rev|]; apply le_bytes_length.
Qed.

Lemma object_value_bytes n z :
  object_value (object_bytes n z) = z mod 256 ^ Z.of_nat n.
Proof.
  unfold object_value, object_bytes. destruct big_endian;
    [rewrite rev_involutive|]; apply le_value_le_bytes.
Qed.

Lemma read_app (a rest : list byte) : read (length a) (a ++ rest) = Ok (a, rest).
Proof.
  unfold read. rewrite length_app.
  destruct (length a <=? length a + length rest)%nat eqn:E;
    [|apply Nat.leb_gt in E; lia].
  rewrite firstn_app, Nat.sub_diag, firstn_all, skipn_app, Nat.sub_diag, skipn_all.
  simpl. rewrite app_nil_r. reflexivity.
Qed.

(** Reading back the entries that were written assigns them, in the
    order of writing, to the map under construction. *)
Lemma read_entries_written (l : list (char * Z)) :
  forall acc rest,
    read_entries (length l) acc (flat_map write_entry l ++ rest)
    = Ok (fold_left reassign l acc, rest).
Proof.
  induction l as [|[c f] l IH]; intros acc rest; [reflexivity|].
  cbn [length read_entries flat_map]. unfold write_entry at 1. cbn [fst snd].
  rewrite <- app_assoc.
  change ((c :: object_bytes 4 (uint32_wrap f)) ++ flat_map write_entry l ++ rest)
    with ([c] ++ (object_bytes 4 (uint32_wrap f) ++ flat_map write_entry l ++ rest)).
  rewrite (read_app [c]). cbn [bind].
  rewrite <- (object_bytes_length 4 (uint32_wrap f)) at 1.
  rewrite read_app. cbn [bind hd].
  rewrite object_value_bytes.
  change (256 ^ Z.of_nat 4) with (2 ^ 32).
  fold (uint32_wrap (uint32_wrap f)). rewrite !int_wrap_uint32.
  rewrite IH. reflexivity.
Qed.

Lemma reassign_fresh (l : list (char * Z)) :
  forall acc, NoDup (keys (acc ++ l)) ->
              Forall (fun e => int_wrap (snd e) = snd e) l ->
              fold_left reassign l acc = acc ++ l.
Proof.
  induction l as [|[c f] l IH]; intros acc ND Hint; simpl.
  - rewrite app_nil_r. reflexivity.
  - inversion Hint as [|? ? Hf Hint']; subst. simpl in Hf.
    unfold reassign at 2. cbn [fst snd]. rewrite Hf.
    rewrite um_assign_fresh.
    + rewrite IH; [rewrite <- app_assoc; reflexivity | | exact Hint'].
      rewrite <- app_assoc. exact ND.
    + apply um_find_None. unfold keys in *. rewrite map_app in ND. simpl in ND.
      apply NoDup_remove_2 in ND. intros I. apply ND. apply in_or_app. now left.
Qed.

(** What [readFrequencyMap] finds in a container: the entries of the
    table that was written, inserted in the order of its iteration. *)
Lemma readFrequencyMap_written (freqMap : unordered_map Z) (rest : list byte) :
  Permutation (iterate freqMap) freqMap ->
  NoDup (keys freqMap) ->
  Forall (fun e => int_wrap (snd e) = snd e) freqMap ->
  readFrequencyMap (writeFrequencyMap freqMap ++ rest) = Ok (iterate freqMap, rest).
Proof.
  intros Hp ND Hint. unfold readFrequencyMap, writeFrequencyMap.
  assert (Hl : (length freqMap <= 256)%nat).
  { rewrite <- (length_map (@fst char Z)). apply NoDup_bytes_length, ND. }
  rewrite <- app_assoc.
  rewrite <- (object_bytes_length 2 (uint16_wrap (Z.of_nat (length freqMap)))) at 1.
  rewrite read_app. cbn [bind].
  rewrite object_value_bytes. change (256 ^ Z.of_nat 2) with (2 ^ 16).
  unfold uint16_wrap. rewrite Z.mod_mod by lia.
  rewrite Z.mod_small by (change (2 ^ 16) with 65536; lia).
  rewrite Nat2Z.id, <- (Permutation_length Hp).
  rewrite read_entries_written. f_equal. f_equal.
  apply (@reassign_fresh (iterate freqMap) []).
  - simpl. eapply Permutation_NoDup; [|exact ND].
    apply Permutation_sym, Permutation_map, Hp.
  - eapply Permutation_Forall; [apply Permutation_sym, Hp | exact Hint].
Qed.

End Container.

(** ** The bit stream *)

Lemma padding_for_formula (encodedText : list bool) :
  padding_for encodedText = (8 - Z.of_nat (length encodedText) mod 8) mod 8.
Proof.
  unfold padding_for, uint8_wrap.
  pose proof (Z.mod_pos_bound (Z.of_nat (length encodedText)) 8 ltac:(lia)) as Hb.
  change (2 ^ 8) with 256. cbv zeta.
  rewrite (Z.mod_small (8 - Z.of_nat (length encodedText) mod 8) 256) by lia.
  destruct (8 - Z.of_nat (length encodedText) mod 8 =? 8) eqn:E.
  - apply Z.eqb_eq in E. rewrite E. reflexivity.
  - apply Z.eqb_neq in E.
    rewrite (Z.mod_small (8 - Z.of_nat (length encodedText) mod 8) 8) by lia.
    reflexivity.
Qed.

Lemma padding_for_range (encodedText : list bool) :
  0 <= padding_for encodedText <= 7.
Proof.
  rewrite padding_for_formula.
  pose proof (Z.mod_pos_bound (8 - Z.of_nat (length encodedText) mod 8) 8 ltac:(lia)).
  lia.
Qed.

Lemma padding_for_aligns (encodedText : list bool) :
  exists k : nat,
    (length encodedText + Z.to_nat (padding_for encodedText) = 8 * k)%nat.
Proof.
  pose proof (padding_for_range encodedText) as Hr.
  pose proof (padding_for_formula encodedText) as Hf.
  set (n := Z.of_nat (length encodedText)) in *.
  exists (Z.to_nat ((n + padding_for encodedText) / 8)).
  assert (Hm : (n + padding_for encodedText) mod 8 = 0).
  { rewrite Hf. rewrite Zplus_mod_idemp_r.
    replace (n + (8 - n mod 8)) with (n - n mod 8 + 1 * 8) by lia.
    rewrite Z_mod_plus_full, Zminus_mod_idemp_r, Z.sub_diag. reflexivity. }
  pose proof (Z_div_mod_eq_full (n + padding_for encodedText) 8) as Hd.
  assert (0 <= (n + padding_for encodedText) / 8) by (apply Z.div_pos; lia).
  lia.
Qed.

(** Eight characters make a byte whose bits, most significant first, are
    these characters. *)
Lemma bitset_round_trip (byteString : list bool) :
  length byteString = 8%nat ->
  bitset_to_string (Z_to_byte (uint8_wrap (bitset_to_ulong byteString)))
  = byteString.
Proof.
  intros H.
  do 8 (destruct byteString as [|? byteString]; [discriminate|]).
  destruct byteString; [|discriminate]. clear H.
  repeat match goal with b : bool |- _ => destruct b end; vm_compute; reflexivity.
Qed.

Lemma write_bytes_nil fuel : write_bytes fuel [] = [].
Proof. destruct fuel; reflexivity. Qed.

Lemma write_bytes_chunk fuel (chunk s : list bool) :
  length chunk = 8%nat ->
  write_bytes (S fuel) (chunk ++ s)
  = Z_to_byte (uint8_wrap (bitset_to_ulong chunk)) :: write_bytes fuel s.
Proof.
  intros H. destruct chunk as [|b chunk]; [discriminate|].
  cbn [write_bytes app]. rewrite <- H.
  change (b :: chunk ++ s) with ((b :: chunk) ++ s).
  rewrite firstn_app, Nat.sub_diag, firstn_all, skipn_app, Nat.sub_diag, skipn_all.
  simpl. rewrite app_nil_r. reflexivity.
Qed.

Lemma split_chunk (k : nat) (s : list bool) :
  length s = (8 * S k)%nat ->
  exists chunk s', s = chunk ++ s' /\ length chunk = 8%nat
                   /\ length s' = (8 * k)%nat.
Proof.
  intros H. exists (firstn 8 s), (skipn 8 s).
  rewrite firstn_skipn, length_firstn, length_skipn. repeat split; lia.
Qed.

(** The bytes written for a text whose length is a multiple of eight
    read back as that text. *)
Lemma write_bytes_read (k : nat) :
  forall fuel s, length s = (8 * k)%nat -> (k <= fuel)%nat ->
  flat_map bitset_to_string (write_bytes fuel s) = s
  /\ length (write_bytes fuel s) = k.
Proof.
  induction k as [|k IH]; intros fuel s Hl Hf.
  - destruct s; [|discriminate]. rewrite write_bytes_nil. auto.
  - destruct (@split_chunk k s Hl) as [chunk [s' [-> [Hc Hs]]]].
    destruct fuel as [|fuel]; [lia|].
    rewrite write_bytes_chunk by exact Hc. cbn [flat_map length].
    rewrite bitset_round_trip by exact Hc.
    destruct (IH fuel s' Hs ltac:(lia)) as [-> ->]. auto.
Qed.

(** Without their last byte they read back as the text without its last
    eight characters. *)
Lemma write_bytes_removelast (k : nat) :
  forall fuel s, length s = (8 * S k)%nat -> (S k <= fuel)%nat ->
  flat_map bitset_to_string (removelast (write_bytes fuel s))
  = firstn (8 * k) s.
Proof.
  induction k as [|k IH]; intros fuel s Hl Hf.
  - destruct (@split_chunk 0 s Hl) as [chunk [s' [-> [Hc Hs]]]].
    destruct s'; [|discriminate]. destruct fuel as [|fuel]; [lia|].
    rewrite write_bytes_chunk by exact Hc. rewrite write_bytes_nil. reflexivity.
  - destruct (@split_chunk (S k) s Hl) as [chunk [s' [-> [Hc Hs]]]].
    destruct fuel as [|fuel]; [lia|].
    rewrite write_bytes_chunk by exact Hc.
    destruct (@write_bytes_read (S k) fuel s' Hs ltac:(lia)) as [_ Hlen].
    destruct (write_bytes fuel s') as [|b ws] eqn:Ew; [discriminate|].
    change (removelast (?x :: b :: ws)) with (x :: removelast (b :: ws)).
    cbn [flat_map]. rewrite bitset_round_trip by exact Hc.
    rewrite <- Ew, IH by (assumption || lia).
    rewrite firstn_app, Hc.
    rewrite (firstn_all2 (n := 8 * S k) chunk) by lia.
    f_equal. f_equal. lia.
Qed.

Lemma bitset_to_string_length b : length (bitset_to_string b) = 8%nat.
Proof. reflexivity. Qed.

(** [readEncodedData] undoes [writeEncodedData]. *)
Lemma readEncodedData_written (encodedText : list bool) :
  readEncodedData (writeEncodedData encodedText)
  = Ok (padding_for encodedText, encodedText).
Proof.
  unfold readEncodedData, writeEncodedData.
  pose proof (padding_for_range encodedText) as Hr.
  destruct (padding_for_aligns encodedText) as [k Hk].
  set (padding := padding_for encodedText) in *.
  set (padded := encodedText ++ repeat false (Z.to_nat padding)).
  assert (Hl : length padded = (8 * k)%nat).
  { unfold padded. rewrite length_app, repeat_length. exact Hk. }
  change (read 1 (?b :: ?r)) with (read (length [b]) ([b] ++ r)).
  rewrite read_app. cbn [bind hd].
  rewrite byte_to_Z_to_byte, Z.mod_small by lia.
  destruct (@write_bytes_read k (length padded) padded Hl ltac:(lia)) as [-> _].
  destruct (0 <? padding) eqn:E0; cbn [andb].
  - apply Z.ltb_lt in E0.
    destruct (Nat.eqb (length padded) 0) eqn:En.
    + apply Nat.eqb_eq in En. unfold padded in En. rewrite length_app, repeat_length in En. lia.
    + cbn [negb].
      destruct (padding <=? Z.of_nat (length padded)) eqn:El.
      * f_equal. f_equal. unfold padded at 1. rewrite length_app, repeat_length.
        replace (length encodedText + Z.to_nat padding - Z.to_nat padding)%nat
          with (length encodedText + 0)%nat by lia.
        unfold padded. rewrite firstn_app_2. simpl. apply app_nil_r.
      * apply Z.leb_gt in El. unfold padded in El.
        rewrite length_app, repeat_length in El. lia.
  - apply Z.ltb_ge in E0. assert (padding = 0) as E by lia.
    unfold padded. rewrite E. simpl. rewrite app_nil_r. reflexivity.
Qed.

(** ** Whole runs *)

Section SingleSymbol.
Context {P : Platform} {L : Lawful P}.

Lemma iterate_singleton (e : char * Z) : iterate [e] = [e].
Proof.
  apply Permutation_length_1_inv, Permutation_sym, iterate_perm.
Qed.

(** The tree of a table with one entry is the leaf of that entry: the
    loop body never runs. *)
Lemma buildHuffmanTree_singleton c f :
  buildHuffmanTree [(c, f)] = Ok (new_Node c f nullptr nullptr).
Proof.
  unfold buildHuffmanTree, push_leaves. rewrite iterate_singleton. cbn [fold_left fst snd].
  assert (E : pq_push (new_Node c f nullptr nullptr) [] = [new_Node c f nullptr nullptr]).
  { apply Permutation_length_1_inv, Permutation_sym, pq_push_perm. }
  rewrite E. cbn [length merge_loop Nat.leb bind]. apply top_singleton.
Qed.

Lemma encodeText_empty_code c n :
  encodeText (repeat c n) [(c, [])] = Ok [].
Proof.
  induction n as [|n IH]; [reflexivity|].
  cbn [repeat encodeText]. unfold um_at. cbn [um_find].
  rewrite byte_eqb_refl. cbn [bind]. rewrite IH. reflexivity.
Qed.

Lemma single_symbol_run c (n : nat) :
  let text := repeat c (S n) in
  let freq := int_wrap (Z.of_nat (S n)) in
  buildFrequencyMap text = [(c, freq)]
  /\ code_table text = Ok [(c, [])]
  /\ compress text = Ok (writeFrequencyMap [(c, freq)] ++ [x00])
  /\ round_trip text = Ok [].
Proof.
  intros text freq.
  assert (Em : buildFrequencyMap text = [(c, freq)]).
  { unfold text, freq. rewrite <- (Nat2Z.id (S n)) at 1.
    apply buildFrequencyMap_repeat. lia. }
  assert (Ec : compress text = Ok (writeFrequencyMap [(c, freq)] ++ [x00])).
  { unfold compress. rewrite Em, buildHuffmanTree_singleton. cbn [bind generateCodes].
    cbn [is_null andb um_assign]. unfold text. rewrite encodeText_empty_code.
    reflexivity. }
  split; [exact Em|]. split.
  - unfold code_table. rewrite Em, buildHuffmanTree_singleton. reflexivity.
  - split; [exact Ec|].
    unfold round_trip. rewrite Ec. cbn [bind]. unfold decompress.
    rewrite readFrequencyMap_written.
    + rewrite iterate_singleton. cbn [bind].
      rewrite buildHuffmanTree_singleton. reflexivity.
    + apply iterate_perm.
    + repeat constructor. simpl. tauto.
    + repeat constructor. simpl. apply int_wrap_small, int_wrap_range.
Qed.

End SingleSymbol.

(** ** The code writes the layout of the specification *)

Lemma Z_to_byte_mod z : Z_to_byte (z mod 256) = Z_to_byte z.
Proof. unfold Z_to_byte. rewrite Z.mod_mod by lia. reflexivity. Qed.

Lemma le_bytes_digits n z :
  le_bytes n z = map (fun i => Z_to_byte (z / 256 ^ Z.of_nat i)) (seq 0 n).
Proof.
  revert z. induction n as [|n IH]; intros z; [reflexivity|].
  cbn [le_bytes seq map]. rewrite Z.div_1_r. f_equal.
  rewrite IH, <- seq_shift, map_map. apply map_ext. intros i.
  rewrite Nat2Z.inj_succ, Z.pow_succ_r by lia.
  rewrite Z.div_div by lia. reflexivity.
Qed.

Lemma le_bytes_mod n z : le_bytes n (z mod 256 ^ Z.of_nat n) = le_bytes n z.
Proof.
  revert z. induction n as [|n IH]; intros z; [reflexivity|].
  cbn [le_bytes]. rewrite Nat2Z.inj_succ, Z.pow_succ_r by lia.
  assert (Hp : 0 < 256 ^ Z.of_nat n) by (apply Z.pow_pos_nonneg; lia).
  rewrite Z.rem_mul_r by lia.
  f_equal.
  - rewrite <- (Z_to_byte_mod (_ + _)), (Z.mul_comm 256), Z_mod_plus_full.
    rewrite Z.mod_mod by lia. apply Z_to_byte_mod.
  - rewrite (Z.mul_comm 256), Z.div_add by lia.
    rewrite (Z.div_small (z mod 256)) by (apply Z.mod_pos_bound; lia).
    apply IH.
Qed.

Lemma object_bytes_field {P : Platform} n z z' :
  z mod 256 ^ Z.of_nat n = z' mod 256 ^ Z.of_nat n ->
  object_bytes n z = unsigned_field n z'.
Proof.
  intros E. unfold object_bytes, unsigned_field.
  rewrite <- (le_bytes_digits n z'), <- (le_bytes_mod n z), E, le_bytes_mod.
  reflexivity.
Qed.

Lemma uint32_of_int z : uint32_wrap (int_wrap z) = z mod 2 ^ 32.
Proof.
  unfold uint32_wrap, int_wrap. rewrite Zminus_mod_idemp_l. f_equal. lia.
Qed.

Lemma packed_byte_first (chunk s : list bool) :
  length chunk = 8%nat ->
  packed_byte (chunk ++ s) 0 = Z_to_byte (uint8_wrap (bitset_to_ulong chunk)).
Proof.
  intros H.
  do 8 (destruct chunk as [|? chunk]; [discriminate|]).
  destruct chunk; [|discriminate]. clear H.
  unfold packed_byte. cbn [seq map Nat.mul Nat.add app nth].
  repeat match goal with b : bool |- _ => destruct b end; vm_compute; reflexivity.
Qed.

Lemma packed_byte_next (chunk s : list bool) j :
  length chunk = 8%nat -> packed_byte (chunk ++ s) (S j) = packed_byte s j.
Proof.
  intros H. unfold packed_byte. f_equal. f_equal. apply map_ext. intros i.
  replace (8 * S j + i)%nat with (length chunk + (8 * j + i))%nat by lia.
  rewrite app_nth2_plus. reflexivity.
Qed.

(** The loop of [writeEncodedData] packs most significant bit first. *)
Lemma write_bytes_pack (k : nat) :
  forall fuel s, length s = (8 * k)%nat -> (k <= fuel)%nat ->
  write_bytes fuel s = pack_msb_first s.
Proof.
  unfold pack_msb_first.
  induction k as [|k IH]; intros fuel s Hl Hf.
  - destruct s; [|discriminate]. rewrite write_bytes_nil. reflexivity.
  - destruct (@split_chunk k s Hl) as [chunk [s' [-> [Hc Hs]]]].
    destruct fuel as [|fuel]; [lia|].
    rewrite write_bytes_chunk by exact Hc.
    rewrite Hl. replace (8 * S k / 8)%nat with (S k)
      by (symmetry; rewrite Nat.mul_comm; apply Nat.div_mul; lia).
    cbn [seq map]. rewrite packed_byte_first by exact Hc. f_equal.
    rewrite <- seq_shift, map_map.
    rewrite (IH fuel s' Hs ltac:(lia)), Hs.
    replace (8 * k / 8)%nat with k
      by (symmetry; rewrite Nat.mul_comm; apply Nat.div_mul; lia).
    apply map_ext. intros j. symmetry. apply packed_byte_next. exact Hc.
Qed.

Lemma writeEncodedData_layout (encodedText : list bool) :
  writeEncodedData encodedText
  = Z_to_byte (padding_for encodedText)
      :: pack_msb_first
           (encodedText ++ repeat false (Z.to_nat (padding_for encodedText))).
Proof.
  unfold writeEncodedData. f_equal.
  destruct (padding_for_aligns encodedText) as [k Hk].
  apply (@write_bytes_pack k); rewrite length_app, repeat_length; lia.
Qed.

(** ** compress and decompress on a lawful platform *)

Section Runs.
Context {P : Platform} {L : Lawful P}.

Lemma buildFrequencyMap_nonempty text : text <> [] -> buildFrequencyMap text <> [].
Proof.
  destruct text as [|c text]; [congruence|]. intros _ E.
  assert (I : In c (keys (buildFrequencyMap (c :: text))))
    by (apply buildFrequencyMap_keys; now left).
  rewrite E in I. exact I.
Qed.

Lemma iterate_keys (freqMap : unordered_map Z) :
  Permutation (keys (iterate freqMap)) (keys freqMap).
Proof. apply Permutation_map, iterate_perm. Qed.

Lemma root_NoDup (freqMap : unordered_map Z) root :
  NoDup (keys freqMap) -> is_root_of freqMap root -> NoDup (leaf_chars root).
Proof.
  intros ND [_ Hp]. eapply Permutation_NoDup; [apply Permutation_sym, Hp | exact ND].
Qed.

(** Every key of the table has a code in the table made from its tree. *)
Lemma root_code (freqMap : unordered_map Z) root c :
  NoDup (keys freqMap) -> is_root_of freqMap root -> In c (keys freqMap) ->
  exists s, um_find c (generateCodes root [] []) = Some s
            /\ In (c, s) (codes root).
Proof.
  intros ND Hr I. assert (NDr := root_NoDup ND Hr). destruct Hr as [F Hp].
  apply (Permutation_in _ (Permutation_sym Hp)) in I.
  rewrite <- codes_leaf_chars in I. apply in_map_iff in I.
  destruct I as [[c' s] [E I]]. simpl in E. subst c'.
  exists s. split; [apply generateCodes_find; assumption | exact I].
Qed.

Lemma encodeText_total text (huffmanCode : unordered_map (list bool)) :
  (forall c, In c text -> exists s, um_find c huffmanCode = Some s) ->
  exists enc, encodeText text huffmanCode = Ok enc.
Proof.
  induction text as [|c text IH]; intros H; [exists []; reflexivity|].
  destruct (H c (or_introl eq_refl)) as [s Es].
  destruct IH as [rest Er]; [intros d I; apply H; now right|].
  exists (s ++ rest). cbn [encodeText]. unfold um_at. rewrite Es. cbn [bind].
  rewrite Er. reflexivity.
Qed.

Lemma encodeText_nonempty text (huffmanCode : unordered_map (list bool)) enc :
  text <> [] ->
  (forall c s, um_find c huffmanCode = Some s -> (1 <= length s)%nat) ->
  encodeText text huffmanCode = Ok enc -> enc <> [].
Proof.
  destruct text as [|c text]; [congruence|]. intros _ H E.
  apply encodeText_inv in E. destruct E as [code [rest [Ec [_ ->]]]].
  apply H in Ec. destruct code; [simpl in Ec; lia | discriminate].
Qed.

(** On a non-empty text [compress] returns, and what it writes is the
    table followed by the encoded text. *)
Lemma compress_spec text :
  text <> [] ->
  exists root enc,
    buildHuffmanTree (buildFrequencyMap text) = Ok root
    /\ is_root_of (buildFrequencyMap text) root
    /\ encodeText text (generateCodes root [] []) = Ok enc
    /\ compress text
       = Ok (writeFrequencyMap (buildFrequencyMap text) ++ writeEncodedData enc).
Proof.
  intros N.
  destruct (@buildHuffmanTree_spec _ _ _ (@buildFrequencyMap_nonempty text N))
    as [root [Er Hr]].
  destruct (@encodeText_total text (generateCodes root [] [])) as [enc Ee].
  { intros c I. apply buildFrequencyMap_keys in I.
    destruct (@root_code _ _ c (buildFrequencyMap_NoDup text) Hr I) as [s [Es _]].
    eauto. }
  exists root, enc. repeat split; try assumption; try apply Hr.
  unfold compress. rewrite Er. cbn [bind]. rewrite Ee. reflexivity.
Qed.

(** When the table read from the container is iterated like the table
    that was written, a text with two different bytes or more comes back
    unchanged. *)
Theorem round_trip_two_symbols text :
  (2 <= length (buildFrequencyMap text))%nat ->
  iterate (iterate (buildFrequencyMap text)) = iterate (buildFrequencyMap text) ->
  round_trip text = Ok text.
Proof.
  intros H2 Hstable.
  assert (N : text <> []) by (intros ->; simpl in H2; lia).
  destruct (@compress_spec text N) as [root [enc [Er [Hr [Ee Ec]]]]].
  unfold round_trip. rewrite Ec. cbn [bind]. unfold decompress.
  rewrite readFrequencyMap_written;
    [|apply iterate_perm|apply buildFrequencyMap_NoDup|apply buildFrequencyMap_int].
  cbn [bind].
  rewrite (@buildHuffmanTree_iterate _ _ _ Hstable), Er. cbn [bind].
  rewrite readEncodedData_written. cbn [bind].
  apply (@decode_encodeText root (proj1 Hr) (@root_of_two_is_inner _ _ Hr H2)
           (generateCodes root [] [])); [|exact Ee].
  intros c s Es. apply generateCodes_find in Es; [exact Es|].
  apply (@root_NoDup _ _ (buildFrequencyMap_NoDup text) Hr).
Qed.

End Runs.

(** ** A container without its last byte *)

(** When the last byte of the bit stream is missing, [readEncodedData]
    still strips the stored number of characters from what is left and
    returns a proper beginning of the encoded text. *)
Lemma readEncodedData_truncated (encodedText : list bool) :
  encodedText <> [] ->
  exists n, (n < length encodedText)%nat
            /\ readEncodedData (removelast (writeEncodedData encodedText))
               = Ok (padding_for encodedText, firstn n encodedText).
Proof.
  intros N. unfold writeEncodedData.
  pose proof (padding_for_range encodedText) as Hr.
  destruct (padding_for_aligns encodedText) as [k Hk].
  set (padding := padding_for encodedText) in *.
  set (padded := encodedText ++ repeat false (Z.to_nat padding)).
  assert (Hl : length padded = (8 * k)%nat).
  { unfold padded. rewrite length_app, repeat_length. exact Hk. }
  assert (Hpos : (0 < length encodedText)%nat)
    by (destruct encodedText; [congruence | simpl; lia]).
  destruct k as [|k]; [lia|].
  destruct (@write_bytes_read (S k) (length padded) padded Hl ltac:(lia)) as [_ Hlen].
  pose proof (@write_bytes_removelast k (length padded) padded Hl ltac:(lia)) as Hrl.
  destruct (write_bytes (length padded) padded) as [|b ws] eqn:Ew; [discriminate|].
  change (removelast (?x :: b :: ws)) with (x :: removelast (b :: ws)).
  unfold readEncodedData.
  change (read 1 (?x :: ?r)) with (read (length [x]) ([x] ++ r)).
  rewrite read_app. cbn [bind hd].
  rewrite byte_to_Z_to_byte, Z.mod_small by lia. rewrite Hrl.
  assert (Hfl : length (firstn (8 * k) padded) = (8 * k)%nat)
    by (rewrite length_firstn; lia).
  rewrite Hfl.
  assert (Hcut : forall n, (n <= length encodedText)%nat ->
                           firstn n padded = firstn n encodedText).
  { intros n Hn. unfold padded. rewrite firstn_app.
    replace (n - length encodedText)%nat with 0%nat by lia.
    simpl. apply app_nil_r. }
  destruct (0 <? padding) eqn:E0; cbn [andb].
  - apply Z.ltb_lt in E0. destruct (Nat.eqb (8 * k) 0) eqn:En; cbn [negb].
    + apply Nat.eqb_eq in En. exists 0%nat. split; [lia|].
      replace (8 * k)%nat with 0%nat by lia. reflexivity.
    + apply Nat.eqb_neq in En.
      destruct (padding <=? Z.of_nat (8 * k)) eqn:El;
        [|apply Z.leb_gt in El; lia].
      exists (8 * k - Z.to_nat padding)%nat. split; [lia|].
      rewrite firstn_firstn.
      replace (Nat.min (8 * k - Z.to_nat padding) (8 * k))
        with (8 * k - Z.to_nat padding)%nat by lia.
      rewrite Hcut by lia. reflexivity.
  - apply Z.ltb_ge in E0. exists (8 * k)%nat. split; [lia|].
    rewrite Hcut by lia. reflexivity.
Qed.

(** * The testable properties of the specification *)

(** C1 (round trip), at the input where it fails: a buffer of one byte
    compresses without error and decompresses to the empty buffer. *)
Theorem round_trip_loses_single_byte {P : Platform} {L : Lawful P} (c : char) :
  round_trip [c] = Ok [].
Proof. apply (single_symbol_run c 0). Qed.

Lemma round_trip_loses_single_byte_witness :
  @round_trip insertion_ordered ["A"%byte] = Ok [].
Proof.
  exact (@round_trip_loses_single_byte insertion_ordered insertion_ordered_lawful
           "A"%byte).
Defined.

(** C2 (single-symbol alphabet), what the code does: for a buffer of
    [n+1] copies of one byte the table has one entry, the code of the byte
    is the empty string (length 0), the container ends with the padding
    byte 0 and no bit-stream byte, and the round trip returns the empty
    buffer. *)
Theorem single_symbol_code_is_empty {P : Platform} {L : Lawful P}
        (c : char) (n : nat) :
  let text := repeat c (S n) in
  length (buildFrequencyMap text) = 1%nat
  /\ code_table text = Ok [(c, [])]
  /\ compress text
     = Ok (writeFrequencyMap [(c, int_wrap (Z.of_nat (S n)))] ++ [x00])
  /\ round_trip text = Ok [].
Proof.
  intros text. destruct (single_symbol_run c n) as [Em [Ec [Eo Er]]].
  fold text in Em, Ec, Eo, Er. rewrite Em. auto.
Qed.

Lemma single_symbol_code_is_empty_witness :
  let text := repeat "A"%byte 1000 in
  length (buildFrequencyMap text) = 1%nat
  /\ @code_table insertion_ordered text = Ok [("A"%byte, [])]
  /\ @compress insertion_ordered text
     = Ok (@writeFrequencyMap insertion_ordered [("A"%byte, int_wrap 1000)]
           ++ [x00])
  /\ @round_trip insertion_ordered text = Ok [].
Proof.
  exact (@single_symbol_code_is_empty insertion_ordered insertion_ordered_lawful
           "A"%byte 999).
Defined.

(** C3 (the rebuilt tree), at the input where it fails: on a platform
    whose map is iterated in the reverse order of insertion, the text "ab"
    is compressed with the codes b=0, a=1; the tree rebuilt from the
    container gives a=0, b=1, and the round trip returns "ba". *)
Theorem rebuilt_tree_differs :
  @code_table head_linked ["a"%byte; "b"%byte]
  = Ok [("b"%byte, [false]); ("a"%byte, [true])]
  /\ (container <- @compress head_linked ["a"%byte; "b"%byte] ;;
      root <- @rebuilt_tree head_linked container ;;
      Ok (generateCodes root [] []))
     = Ok [("a"%byte, [false]); ("b"%byte, [true])]
  /\ @round_trip head_linked ["a"%byte; "b"%byte] = Ok ["b"%byte; "a"%byte].
Proof. vm_compute. auto. Qed.

(** C4 (empty input), what the code does: [compress] on the empty buffer
    and [decompress] on the container with zero symbols both call [top()]
    on an empty queue. *)
Theorem empty_input_faults {P : Platform} {L : Lawful P} :
  compress [] = Fault EmptyTop
  /\ decompress (object_bytes 2 0 ++ [x00]) = Fault EmptyTop.
Proof.
  split.
  - unfold compress. change (buildFrequencyMap []) with (@nil (char * Z)).
    rewrite buildHuffmanTree_nil. reflexivity.
  - unfold decompress, readFrequencyMap.
    rewrite <- (object_bytes_length 2 0) at 1.
    rewrite read_app. cbn [bind]. rewrite object_value_bytes.
    change (Z.to_nat (0 mod 256 ^ Z.of_nat 2)) with 0%nat.
    cbn [read_entries bind]. rewrite buildHuffmanTree_nil. reflexivity.
Qed.

Lemma empty_input_faults_witness :
  @compress insertion_ordered [] = Fault EmptyTop
  /\ @decompress insertion_ordered [x00; x00; x00] = Fault EmptyTop.
Proof.
  exact (@empty_input_faults insertion_ordered insertion_ordered_lawful).
Defined.

(** C5 (corruption handling) as stated fails: the container of "ab"
    without its last byte decompresses normally, to the empty buffer. *)
Lemma truncation_not_detected :
  ~ @truncation_detected insertion_ordered ["a"%byte; "b"%byte].
Proof.
  intros H. destruct (H _ eq_refl) as [f E]. vm_compute in E. discriminate.
Qed.

(** C5 as amended: for a buffer with at least two different byte values
    [compress] returns a container, and [decompress] of that container
    without its last byte returns normally -- the code has no truncation
    error; when the table read back is iterated in the order of the table
    written, the output is a proper beginning of the buffer, hence shorter
    than the buffer. *)
Theorem truncated_container_decodes {P : Platform} {L : Lawful P}
        (text : list char) :
  (2 <= length (buildFrequencyMap text))%nat ->
  exists container out,
    compress text = Ok container
    /\ decompress (removelast container) = Ok out
    /\ (iterate (iterate (buildFrequencyMap text)) = iterate (buildFrequencyMap text) ->
        is_prefix out text /\ (length out < length text)%nat).
Proof.
  intros H2.
  assert (N : text <> []) by (intros ->; simpl in H2; lia).
  destruct (@compress_spec _ _ text N) as [root [enc [Er [Hr [Ee Ec]]]]].
  set (freqMap := buildFrequencyMap text) in *.
  assert (ND : NoDup (keys freqMap)) by apply buildFrequencyMap_NoDup.
  assert (NDr := @root_NoDup _ _ ND Hr).
  assert (Hin := @root_of_two_is_inner _ _ Hr H2).
  assert (Htab : forall c s, um_find c (generateCodes root [] []) = Some s ->
                             In (c, s) (codes root))
    by (intros c s Es; apply generateCodes_find in Es; assumption).
  assert (Ne : enc <> []).
  { apply (@encodeText_nonempty text (generateCodes root [] []) enc N); [|exact Ee].
    intros c s Es. apply (@codes_inner_nonempty root c s (proj1 Hr) Hin).
    apply Htab, Es. }
  destruct (readEncodedData_truncated Ne) as [n [Hn Erd]].
  (* the tree that decompress builds *)
  assert (N' : iterate freqMap <> []).
  { intros E. assert (Hl := Permutation_length (iterate_perm freqMap)).
    rewrite E in Hl. simpl in Hl. lia. }
  destruct (@buildHuffmanTree_spec _ _ _ N') as [root' [Er' Hr']].
  assert (Hin' : leaf_node root' = false).
  { apply (@root_of_two_is_inner _ _ Hr').
    rewrite (Permutation_length (iterate_perm freqMap)). exact H2. }
  destruct (@decode_total root' (proj1 Hr') Hin' (firstn n enc) root'
              (proj1 Hr') Hin') as [out Eout].
  exists (writeFrequencyMap freqMap ++ writeEncodedData enc), out.
  split; [exact Ec|].
  assert (Nw : writeEncodedData enc <> []) by (unfold writeEncodedData; discriminate).
  rewrite removelast_app by exact Nw.
  assert (Ed : decompress (writeFrequencyMap freqMap ++ removelast (writeEncodedData enc))
               = decode root' root' (firstn n enc)).
  { unfold decompress.
    rewrite readFrequencyMap_written;
      [|apply iterate_perm|exact ND|apply buildFrequencyMap_int].
    cbn [bind]. rewrite Er'. cbn [bind]. rewrite Erd. reflexivity. }
  split; [rewrite Ed; exact Eout|].
  intros Hstable.
  rewrite (@buildHuffmanTree_iterate _ _ _ Hstable), Er in Er'.
  injection Er' as <-.
  destruct (@decode_truncated root (proj1 Hr) Hin (generateCodes root [] []) Htab
              text enc (firstn n enc) (skipn n enc) Ee)
    as [out' [Eout' Hout']].
  - symmetry. apply firstn_skipn.
  - intros E. assert (Hl := f_equal (@length bool) E).
    rewrite length_skipn in Hl. simpl in Hl. lia.
  - rewrite Eout in Eout'. injection Eout' as <-. exact Hout'.
Qed.

Lemma truncated_container_decodes_witness :
  let text := ["a"%byte; "a"%byte; "a"%byte; "b"%byte; "b"%byte; "c"%byte] in
  (2 <= length (buildFrequencyMap text))%nat
  /\ exists container out,
      @compress insertion_ordered text = Ok container
      /\ @decompress insertion_ordered (removelast container) = Ok out
      /\ is_prefix out text /\ (length out < length text)%nat.
Proof.
  intros text.
  assert (H : (2 <= length (buildFrequencyMap text))%nat) by (vm_compute; lia).
  split; [exact H|].
  destruct (@truncated_container_decodes insertion_ordered insertion_ordered_lawful
              text H) as [container [out [Ec [Ed Hp]]]].
  exists container, out. split; [exact Ec|]. split; [exact Ed|].
  apply Hp. reflexivity.
Defined.

(** C6 (code table validity): for a frequency table with at least two
    symbols the tree is built, and in the code table made from it every
    symbol of the table, and no other, has one code, every code has at
    least one bit, and no code is a prefix of the code of another
    symbol. *)
Theorem code_table_valid {P : Platform} {L : Lawful P}
        (freqMap : unordered_map Z) :
  NoDup (keys freqMap) -> (2 <= length freqMap)%nat ->
  exists root,
    buildHuffmanTree freqMap = Ok root
    /\ let huffmanCode := generateCodes root [] [] in
       NoDup (keys huffmanCode)
       /\ (forall c, In c (keys huffmanCode) <-> In c (keys freqMap))
       /\ (forall c, In c (keys freqMap) ->
                     exists code, um_find c huffmanCode = Some code)
       /\ (forall c code, um_find c huffmanCode = Some code ->
                          (1 <= length code)%nat)
       /\ (forall c1 c2 code1 code2,
              c1 <> c2 ->
              um_find c1 huffmanCode = Some code1 ->
              um_find c2 huffmanCode = Some code2 ->
              ~ is_prefix code1 code2).
Proof.
  intros ND H2.
  assert (N : freqMap <> []) by (intros ->; simpl in H2; lia).
  destruct (@buildHuffmanTree_spec _ _ _ N) as [root [Er Hr]].
  assert (NDr := @root_NoDup _ _ ND Hr).
  assert (Hin := @root_of_two_is_inner _ _ Hr H2).
  exists root. split; [exact Er|]. cbv zeta.
  split; [rewrite generateCodes_fold; apply fold_assign_keys; constructor|].
  split; [|split; [|split]].
  - intros c. split.
    + intros I. apply (Permutation_in _ (proj2 Hr)).
      destruct (in_dec Byte.byte_eq_dec c (leaf_chars root)) as [Il|NI]; [exact Il|].
      apply generateCodes_missing in NI. apply um_find_None in NI. contradiction.
    + intros I. destruct (@root_code _ _ c ND Hr I) as [s [Es _]].
      destruct (in_dec Byte.byte_eq_dec c (keys (generateCodes root [] [])))
        as [Ik|NI]; [exact Ik|].
      apply um_find_None in NI. congruence.
  - intros c I. destruct (@root_code _ _ c ND Hr I) as [s [Es _]]. eauto.
  - intros c code Es. apply generateCodes_find in Es; [|exact NDr].
    apply (@codes_inner_nonempty root c code (proj1 Hr) Hin Es).
  - intros c1 c2 code1 code2 Nc E1 E2 Hp.
    apply generateCodes_find in E1; [|exact NDr].
    apply generateCodes_find in E2; [|exact NDr].
    apply Nc. exact (@codes_prefix_free root (proj1 Hr) NDr c1 code1 c2 code2 E1 E2 Hp).
Qed.

Lemma code_table_valid_witness :
  let freqMap := [("a"%byte, 3); ("b"%byte, 2); ("c"%byte, 1)] in
  NoDup (keys freqMap) /\ (2 <= length freqMap)%nat
  /\ exists root,
      @buildHuffmanTree insertion_ordered freqMap = Ok root
      /\ let huffmanCode := generateCodes root [] [] in
         NoDup (keys huffmanCode)
         /\ (forall c, In c (keys huffmanCode) <-> In c (keys freqMap))
         /\ (forall c, In c (keys freqMap) ->
                       exists code, um_find c huffmanCode = Some code)
         /\ (forall c code, um_find c huffmanCode = Some code ->
                            (1 <= length code)%nat)
         /\ (forall c1 c2 code1 code2,
                c1 <> c2 ->
                um_find c1 huffmanCode = Some code1 ->
                um_find c2 huffmanCode = Some code2 ->
                ~ is_prefix code1 code2).
Proof.
  intros freqMap.
  assert (ND : NoDup (keys freqMap))
    by (repeat constructor; simpl; intuition discriminate).
  assert (H2 : (2 <= length freqMap)%nat) by (simpl; lia).
  split; [exact ND|]. split; [exact H2|].
  exact (@code_table_valid insertion_ordered insertion_ordered_lawful freqMap ND H2).
Defined.

(** C7 (padding correctness): for an encoded text of [L] bits the first
    byte written by [writeEncodedData] holds [(8 - L mod 8) mod 8], a
    value from 0 to 7; the bytes that follow hold [L] plus that many bits;
    and [readEncodedData] returns that padding and, after stripping that
    many trailing bits, the original text, so the original [L] bits. *)
Theorem padding_correct (encodedText : list bool) :
  let L := Z.of_nat (length encodedText) in
  let padding := (8 - L mod 8) mod 8 in
  0 <= padding <= 7
  /\ (exists packed,
         writeEncodedData encodedText = Z_to_byte padding :: packed
         /\ byte_to_Z (Z_to_byte padding) = padding
         /\ 8 * Z.of_nat (length packed) = L + padding)
  /\ (exists stripped,
         readEncodedData (writeEncodedData encodedText) = Ok (padding, stripped)
         /\ stripped = encodedText
         /\ Z.of_nat (length stripped) = L).
Proof.
  intros L padding.
  assert (Ep : padding_for encodedText = padding) by apply padding_for_formula.
  pose proof (padding_for_range encodedText) as Hr. rewrite Ep in Hr.
  split; [exact Hr|]. split.
  - exists (write_bytes
              (length (encodedText ++ repeat false (Z.to_nat padding)))
              (encodedText ++ repeat false (Z.to_nat padding))).
    split; [unfold writeEncodedData; rewrite Ep; reflexivity|].
    split; [rewrite byte_to_Z_to_byte; apply Z.mod_small; lia|].
    destruct (padding_for_aligns encodedText) as [k Hk]. rewrite Ep in Hk.
    destruct (@write_bytes_read k
                (length (encodedText ++ repeat false (Z.to_nat padding)))
                (encodedText ++ repeat false (Z.to_nat padding))) as [_ ->];
      try (rewrite length_app, repeat_length; lia).
    unfold L. lia.
  - exists encodedText. rewrite readEncodedData_written, Ep. auto.
Qed.

(** C8 (container layout): for a non-empty buffer [compress] returns the
    bytes of the layout of the specification -- the 2-byte count of the
    distinct symbols, for each symbol its byte and the 4-byte unsigned
    number of its occurrences, the padding byte (0 to 7), and the encoded
    bits followed by the padding zeros, packed most significant bit
    first -- the symbols being each distinct byte of the buffer once and
    the bits being the codes of the bytes of the buffer in order. *)
Theorem container_layout_exact {P : Platform} {L : Lawful P} (text : list char) :
  text <> [] ->
  exists (symbols : list char) (encodedText : list bool),
    Permutation symbols (nodup Byte.byte_eq_dec text)
    /\ (huffmanCode <- code_table text ;; encodeText text huffmanCode)
       = Ok encodedText
    /\ 0 <= (8 - Z.of_nat (length encodedText) mod 8) mod 8 <= 7
    /\ compress text
       = Ok (container_layout
               (map (fun c => (c, occurrences text c)) symbols) encodedText).
Proof.
  intros N.
  destruct (@compress_spec _ _ text N) as [root [enc [Er [Hr [Ee Ec]]]]].
  set (freqMap := buildFrequencyMap text) in *.
  exists (keys (iterate freqMap)), enc.
  assert (ND : NoDup (keys freqMap)) by apply buildFrequencyMap_NoDup.
  split; [|split; [|split]].
  - apply NoDup_Permutation.
    + eapply Permutation_NoDup; [apply Permutation_sym, iterate_keys | exact ND].
    + apply NoDup_nodup.
    + intros c. rewrite nodup_In, <- (buildFrequencyMap_keys text c). fold freqMap.
      split; apply Permutation_in;
        [apply iterate_keys | apply Permutation_sym, iterate_keys].
  - unfold code_table. fold freqMap. rewrite Er. cbn [bind]. exact Ee.
  - pose proof (padding_for_range enc) as Hr'.
    rewrite padding_for_formula in Hr'. exact Hr'.
  - rewrite Ec. f_equal. unfold container_layout, writeFrequencyMap.
    rewrite <- app_assoc. f_equal; [|f_equal].
    + apply object_bytes_field. unfold keys. rewrite !length_map.
      rewrite (Permutation_length (iterate_perm freqMap)).
      unfold uint16_wrap. change (256 ^ Z.of_nat 2) with (2 ^ 16).
      apply Z.mod_mod. lia.
    + assert (Hall : Forall (fun e => In e freqMap) (iterate freqMap)).
      { apply Forall_forall. intros e I.
        exact (Permutation_in _ (iterate_perm freqMap) I). }
      induction (iterate freqMap) as [|[c v] l IH]; [reflexivity|].
      inversion Hall as [|? ? Hc Hall']; subst.
      cbn [keys map flat_map fst snd]. unfold keys in IH. rewrite IH by exact Hall'.
      f_equal. unfold write_entry. cbn [fst snd]. f_equal.
      apply buildFrequencyMap_entry in Hc. destruct Hc as [_ ->].
      apply object_bytes_field. rewrite uint32_of_int.
      change (256 ^ Z.of_nat 4) with (2 ^ 32). apply Z.mod_mod. lia.
    + rewrite writeEncodedData_layout, padding_for_formula. reflexivity.
Qed.

Lemma container_layout_exact_witness :
  let text := ["a"%byte; "b"%byte] in
  text <> []
  /\ exists symbols encodedText,
      Permutation symbols (nodup Byte.byte_eq_dec text)
      /\ (huffmanCode <- @code_table insertion_ordered text ;;
          encodeText text huffmanCode) = Ok encodedText
      /\ 0 <= (8 - Z.of_nat (length encodedText) mod 8) mod 8 <= 7
      /\ @compress insertion_ordered text
         = Ok (@container_layout insertion_ordered
                 (map (fun c => (c, occurrences text c)) symbols) encodedText).
Proof.
  intros text.
  assert (N : text <> []) by discriminate.
  split; [exact N|].
  exact (@container_layout_exact insertion_ordered insertion_ordered_lawful text N).
Defined.

(** C9 (frequency table) as stated fails: the counter is an [int], and in
    a buffer of 2^31 equal bytes it has wrapped to -2^31. *)
Lemma frequency_table_int_overflow :
  ~ frequency_table_of (repeat "A"%byte (Z.to_nat 2147483648))
      (buildFrequencyMap (repeat "A"%byte (Z.to_nat 2147483648))).
Proof.
  rewrite buildFrequencyMap_repeat by lia.
  unfold frequency_table_of. intros [_ [_ [H _]]].
  apply Forall_inv in H. cbn [snd] in H. vm_compute in H. apply H. reflexivity.
Qed.

(** C9 as amended: for a buffer in which no byte value occurs 2^31 times
    or more, the table maps exactly the distinct bytes of the buffer, every
    count is at least 1, there are at most 256 entries, and the counts add
    up to the length of the buffer. *)
Theorem frequency_table_invariant (text : list char) :
  (forall c, occurrences text c < 2 ^ 31) ->
  frequency_table_of text (buildFrequencyMap text).
Proof.
  intros Hocc. unfold frequency_table_of.
  split; [apply buildFrequencyMap_keys|].
  split; [apply buildFrequencyMap_NoDup|].
  split; [|split; [apply buildFrequencyMap_length | apply buildFrequencyMap_sum, Hocc]].
  apply Forall_forall. intros [c v] I. cbn [snd].
  apply buildFrequencyMap_entry in I. destruct I as [Hpos ->].
  specialize (Hocc c). rewrite int_wrap_small by lia. lia.
Qed.

Lemma frequency_table_invariant_witness :
  (forall c,
      occurrences ["a"%byte; "a"%byte; "a"%byte; "b"%byte; "b"%byte; "c"%byte] c
      < 2 ^ 31)
  /\ frequency_table_of
       ["a"%byte; "a"%byte; "a"%byte; "b"%byte; "b"%byte; "c"%byte]
       (buildFrequencyMap
          ["a"%byte; "a"%byte; "a"%byte; "b"%byte; "b"%byte; "c"%byte]).
Proof.
  assert (H : forall c,
             occurrences
               ["a"%byte; "a"%byte; "a"%byte; "b"%byte; "b"%byte; "c"%byte] c
             < 2 ^ 31).
  { intros c.
    pose proof (occurrences_bounds
                  ["a"%byte; "a"%byte; "a"%byte; "b"%byte; "b"%byte; "c"%byte] c)
      as Hb.
    simpl length in Hb. lia. }
  split; [exact H|].
  exact (@frequency_table_invariant
           ["a"%byte; "a"%byte; "a"%byte; "b"%byte; "b"%byte; "c"%byte] H).
Defined.

(** C10 (the decode walk): for a frequency table with at least two
    entries the tree is built, its root is not null and not a leaf, every
    node of it that is not a leaf has two non-null children, and the
    decoding loop started at the root returns normally -- it never
    dereferences [nullptr] -- on every finite bit sequence. *)
Theorem decode_never_null {P : Platform} {L : Lawful P}
        (freqMap : unordered_map Z) :
  (2 <= length freqMap)%nat ->
  exists root,
    buildHuffmanTree freqMap = Ok root
    /\ is_null root = false
    /\ leaf_node root = false
    /\ inner_nodes_have_two_children root = true
    /\ forall encodedText, exists out, decode root root encodedText = Ok out.
Proof.
  intros H2.
  assert (N : freqMap <> []) by (intros ->; simpl in H2; lia).
  destruct (@buildHuffmanTree_spec _ _ _ N) as [root [Er Hr]].
  assert (Hin := @root_of_two_is_inner _ _ Hr H2).
  exists root. split; [exact Er|].
  split; [apply full_not_null, Hr|]. split; [exact Hin|].
  split; [apply full_two_children, Hr|].
  intros encodedText.
  exact (@decode_total root (proj1 Hr) Hin encodedText root (proj1 Hr) Hin).
Qed.

Lemma decode_never_null_witness :
  (2 <= length [("a"%byte, 1); ("b"%byte, 1)])%nat
  /\ exists root,
      @buildHuffmanTree insertion_ordered [("a"%byte, 1); ("b"%byte, 1)] = Ok root
      /\ is_null root = false
      /\ leaf_node root = false
      /\ inner_nodes_have_two_children root = true
      /\ forall encodedText, exists out, decode root root encodedText = Ok out.
Proof.
  split; [simpl; lia|].
  apply (@decode_never_null insertion_ordered insertion_ordered_lawful
           [("a"%byte, 1); ("b"%byte, 1)]).
  simpl. lia.
Defined.

(** * Further properties of the code *)

(** ** Machine integers, again *)

Lemma int_wrap_congr (a b : Z) :
  a mod 2 ^ 32 = b mod 2 ^ 32 -> int_wrap a = int_wrap b.
Proof.
  intros E. unfold int_wrap. f_equal.
  rewrite <- (Zplus_mod_idemp_l a), <- (Zplus_mod_idemp_l b), E. reflexivity.
Qed.

Lemma int_wrap_mod (a : Z) : int_wrap a mod 2 ^ 32 = a mod 2 ^ 32.
Proof. exact (uint32_of_int a). Qed.

Lemma int_wrap_add (a b : Z) : int_wrap (int_wrap a + int_wrap b) = int_wrap (a + b).
Proof.
  apply int_wrap_congr.
  rewrite Zplus_mod, !int_wrap_mod, <- Zplus_mod. reflexivity.
Qed.

Lemma int_wrap_idem (a : Z) : int_wrap (int_wrap a) = int_wrap a.
Proof. apply int_wrap_small, int_wrap_range. Qed.

(** ** buildFrequencyMap counts occurrences *)

(** X1.  The entry of a byte in the table is the number of its
    occurrences in the buffer, counted in [int]; a byte that does not occur
    has no entry.  (So the table does not depend on the order of the
    bytes.) *)
Theorem frequency_counts_occurrences (text : list char) (c : char) :
  (In c text ->
   um_find c (buildFrequencyMap text) = Some (int_wrap (occurrences text c)))
  /\ (~ In c text -> um_find c (buildFrequencyMap text) = None).
Proof.
  rewrite buildFrequencyMap_find.
  pose proof (occurrences_pos text c) as Hp.
  pose proof (occurrences_bounds text c) as Hb.
  destruct (occurrences text c =? 0) eqn:E.
  - apply Z.eqb_eq in E. split; [intros I; apply Hp in I; lia | reflexivity].
  - apply Z.eqb_neq in E. split; [reflexivity|].
    intros NI. exfalso. apply NI, Hp. lia.
Qed.

Lemma sum_counts_wrapped text :
  int_wrap (sum_counts (buildFrequencyMap text))
  = int_wrap (Z.of_nat (length text)).
Proof.
  induction text as [|d text IH] using rev_ind; [reflexivity|].
  rewrite length_app, buildFrequencyMap_snoc. simpl length.
  unfold increment. rewrite sum_counts_assign.
  set (m := buildFrequencyMap text) in *.
  apply int_wrap_congr.
  replace (sum_counts m - um_index d 0 m + int_wrap (um_index d 0 m + 1))
    with (sum_counts m + (int_wrap (um_index d 0 m + 1) - um_index d 0 m)) by lia.
  rewrite Zplus_mod, <- (int_wrap_mod (sum_counts m)), IH, int_wrap_mod.
  rewrite Zminus_mod, int_wrap_mod, <- Zminus_mod, <- Zplus_mod.
  f_equal. lia.
Qed.

(** ** What buildHuffmanTree keeps in the tree *)

Section TreeInvariant.
Context {P : Platform} {L : Lawful P}.
Variable A : Type.
Variable Q : Node -> Prop.
Variable f : Node -> list A.
Hypothesis Q_full : forall p, Q p -> full p.
Hypothesis Q_merge :
  forall l r lf rf,
    Q l -> Q r -> get_freq l = Ok lf -> get_freq r = Ok rf ->
    Q (new_Node x00 (int_wrap (lf + rf)) l r)
    /\ f (new_Node x00 (int_wrap (lf + rf)) l r) = f l ++ f r.

(** A property of trees that merging keeps is kept by the loop, and what
    the trees hold is only rearranged. *)
Lemma merge_loop_invariant (fuel : nat) (h : list Node) :
  (length h <= S fuel)%nat -> Forall Q h ->
  exists h', merge_loop fuel h = Ok h'
             /\ length h' = Nat.min 1 (length h)
             /\ Forall Q h'
             /\ Permutation (flat_map f h') (flat_map f h).
Proof.
  revert h. induction fuel as [|fuel IH]; intros h Hlen HQ.
  - exists h. cbn [merge_loop]. destruct (length h <=? 1)%nat eqn:E.
    + apply Nat.leb_le in E. repeat split; auto; lia.
    + apply Nat.leb_gt in E. lia.
  - cbn [merge_loop]. destruct (length h <=? 1)%nat eqn:E.
    + apply Nat.leb_le in E. exists h. repeat split; auto; lia.
    + apply Nat.leb_gt in E.
      destruct (@top_nonempty _ _ h) as [x1 [E1 P1]];
        [destruct h; [simpl in E; lia | discriminate]|].
      assert (L1 := Permutation_length P1). simpl in L1.
      destruct (@top_nonempty _ _ (pq_pop h)) as [x2 [E2 P2]];
        [destruct (pq_pop h); [simpl in L1; lia | discriminate]|].
      assert (L2 := Permutation_length P2). simpl in L2.
      assert (F1 : Forall Q (x1 :: pq_pop h))
        by (eapply Permutation_Forall; eassumption).
      inversion F1 as [|? ? Qx1 F1']; subst.
      assert (F2 : Forall Q (x2 :: pq_pop (pq_pop h)))
        by (eapply Permutation_Forall; eassumption).
      inversion F2 as [|? ? Qx2 F2']; subst.
      destruct (full_get_freq (Q_full Qx1)) as [f1 Ef1].
      destruct (full_get_freq (Q_full Qx2)) as [f2 Ef2].
      destruct (Q_merge Qx1 Qx2 Ef1 Ef2) as [Qm Em].
      rewrite E1. cbn [bind]. rewrite E2. cbn [bind].
      rewrite Ef1. cbn [bind]. rewrite Ef2. cbn [bind].
      set (merged := new_Node x00 (int_wrap (f1 + f2)) x1 x2) in *.
      set (h2 := pq_pop (pq_pop h)) in *.
      assert (Lp := Permutation_length (pq_push_perm merged h2)). simpl in Lp.
      destruct (IH (pq_push merged h2)) as [h' [Eh [Lh [Fh Ph]]]].
      * lia.
      * eapply Permutation_Forall; [apply Permutation_sym, pq_push_perm|].
        constructor; assumption.
      * exists h'. split; [exact Eh|]. split; [lia|]. split; [exact Fh|].
        eapply perm_trans; [exact Ph|].
        eapply perm_trans; [apply Permutation_flat_map, pq_push_perm|].
        apply Permutation_sym.
        eapply perm_trans; [apply Permutation_flat_map, P1|].
        cbn [flat_map].
        eapply perm_trans;
          [apply Permutation_app_head, Permutation_flat_map, P2|].
        cbn [flat_map]. rewrite Em, <- app_assoc. apply Permutation_refl.
Qed.

Lemma buildHuffmanTree_invariant (freqMap : unordered_map Z) :
  freqMap <> [] ->
  (forall e, Q (leaf_of e)) ->
  exists root, buildHuffmanTree freqMap = Ok root /\ Q root
               /\ Permutation (f root) (flat_map f (map leaf_of freqMap)).
Proof.
  intros N Hleaf. unfold buildHuffmanTree.
  assert (HQ : Forall Q (push_leaves freqMap)).
  { eapply Permutation_Forall; [apply Permutation_sym, push_leaves_perm|].
    apply Forall_forall. intros x I. apply in_map_iff in I.
    destruct I as [e [<- _]]. apply Hleaf. }
  destruct (@merge_loop_invariant (length (push_leaves freqMap)) (push_leaves freqMap))
    as [h' [Eh [Lh [Fh Ph]]]]; [lia | exact HQ|].
  rewrite Eh. cbn [bind].
  rewrite push_leaves_length in Lh.
  destruct freqMap as [|e m]; [congruence|]. simpl in Lh.
  destruct h' as [|root [|? ?]]; try discriminate.
  exists root. rewrite top_singleton. split; [reflexivity|].
  inversion Fh; subst. split; [assumption|].
  simpl in Ph. rewrite app_nil_r in Ph.
  eapply perm_trans; [exact Ph|]. apply Permutation_flat_map, push_leaves_perm.
Qed.

End TreeInvariant.

Lemma full_freq_or_zero p f : get_freq p = Ok f -> freq_or_zero p = f.
Proof. destruct p; simpl; [discriminate | intros [= ->]; reflexivity]. Qed.

Lemma weighted_merge l r lf rf :
  weighted l -> weighted r -> get_freq l = Ok lf -> get_freq r = Ok rf ->
  weighted (new_Node x00 (int_wrap (lf + rf)) l r)
  /\ leaf_entries (new_Node x00 (int_wrap (lf + rf)) l r)
     = leaf_entries l ++ leaf_entries r.
Proof.
  intros [Fl Wl] [Fr Wr] El Er. split; [split|].
  - constructor; assumption.
  - cbn [inner_nodes_sum_children]. rewrite (full_not_null Fl). cbn [andb orb].
    rewrite (full_freq_or_zero _ El), (full_freq_or_zero _ Er), Z.eqb_refl, Wl, Wr.
    reflexivity.
  - cbn [leaf_entries]. rewrite (full_not_null Fl). reflexivity.
Qed.

Lemma leaf_entries_leaves (freqMap : unordered_map Z) :
  flat_map leaf_entries (map leaf_of freqMap) = freqMap.
Proof.
  induction freqMap as [|[c f] m IH]; simpl; [reflexivity|].
  rewrite IH. reflexivity.
Qed.

Lemma full_node_count p :
  full p -> (node_count p + 1 = 2 * length (leaf_entries p))%nat.
Proof.
  induction 1 as [c f|c f l r Fl IHl Fr IHr]; [reflexivity|].
  cbn [node_count leaf_entries]. rewrite (full_not_null Fl). cbn [andb].
  rewrite length_app. lia.
Qed.

Lemma sum_counts_app (m1 m2 : unordered_map Z) :
  sum_counts (m1 ++ m2) = sum_counts m1 + sum_counts m2.
Proof.
  unfold sum_counts. induction m1 as [|e m1 IH]; simpl; [reflexivity|].
  rewrite IH. lia.
Qed.

(** The frequency of a node is the sum, in [int], of the frequencies at
    the leaves below it. *)
Lemma weighted_freq p :
  weighted p ->
  int_wrap (freq_or_zero p) = int_wrap (sum_counts (leaf_entries p)).
Proof.
  intros [F W]. induction F as [c f|c f l r Fl IHl Fr IHr].
  - unfold sum_counts. simpl. f_equal. lia.
  - cbn [inner_nodes_sum_children] in W. rewrite (full_not_null Fl) in W.
    cbn [andb orb] in W.
    apply andb_prop in W. destruct W as [W Wr].
    apply andb_prop in W. destruct W as [W Wl].
    apply andb_prop in W. destruct W as [_ Ef]. apply Z.eqb_eq in Ef.
    cbn [freq_or_zero leaf_entries]. rewrite (full_not_null Fl). cbn [andb].
    rewrite Ef, int_wrap_idem.
    rewrite <- int_wrap_add, (IHl Wl), (IHr Wr), int_wrap_add.
    f_equal. symmetry. apply sum_counts_app.
Qed.

Lemma sum_counts_perm (m1 m2 : unordered_map Z) :
  Permutation m1 m2 -> sum_counts m1 = sum_counts m2.
Proof.
  unfold sum_counts. induction 1; simpl; lia.
Qed.

(** X2.  For a table with at least one entry the tree is built; its
    leaves are exactly the entries of the table, each once, with its
    frequency; every other node has two children, the character NUL and the
    sum (in [int]) of the frequencies of its children; and a table of [n]
    entries takes [2n - 1] nodes. *)
Theorem tree_holds_table {P : Platform} {L : Lawful P}
        (freqMap : unordered_map Z) :
  freqMap <> [] ->
  exists root,
    buildHuffmanTree freqMap = Ok root
    /\ Permutation (leaf_entries root) freqMap
    /\ inner_nodes_have_two_children root = true
    /\ inner_nodes_sum_children root = true
    /\ node_count root = (2 * length freqMap - 1)%nat.
Proof.
  intros N.
  destruct (@buildHuffmanTree_invariant _ _ _ weighted leaf_entries
              (fun p H => proj1 H) weighted_merge freqMap N)
    as [root [Er [[F W] Hp]]].
  { intros e. split; [constructor | reflexivity]. }
  rewrite leaf_entries_leaves in Hp.
  exists root. split; [exact Er|]. split; [exact Hp|].
  split; [apply full_two_children, F|]. split; [exact W|].
  pose proof (full_node_count F) as Hn.
  rewrite (Permutation_length Hp) in Hn. lia.
Qed.

Lemma tree_holds_table_witness :
  let freqMap := [("a"%byte, 3); ("b"%byte, 2); ("c"%byte, 1)] in
  freqMap <> []
  /\ exists root,
      @buildHuffmanTree insertion_ordered freqMap = Ok root
      /\ Permutation (leaf_entries root) freqMap
      /\ inner_nodes_have_two_children root = true
      /\ inner_nodes_sum_children root = true
      /\ node_count root = (2 * length freqMap - 1)%nat.
Proof.
  intros freqMap. assert (N : freqMap <> []) by discriminate.
  split; [exact N|].
  exact (@tree_holds_table insertion_ordered insertion_ordered_lawful freqMap N).
Defined.

(** X3.  For a non-empty buffer the frequency stored in the root of the
    tree that [compress] builds is the length of the buffer, counted in
    [int]. *)
Theorem root_frequency_is_length {P : Platform} {L : Lawful P}
        (text : list char) :
  text <> [] ->
  exists root,
    buildHuffmanTree (buildFrequencyMap text) = Ok root
    /\ get_freq root = Ok (int_wrap (Z.of_nat (length text))).
Proof.
  intros N.
  destruct (@buildHuffmanTree_invariant _ _ _ weighted leaf_entries
              (fun p H => proj1 H) weighted_merge (buildFrequencyMap text)
              (@buildFrequencyMap_nonempty text N))
    as [root [Er [W Hp]]].
  { intros e. split; [constructor | reflexivity]. }
  rewrite leaf_entries_leaves in Hp.
  exists root. split; [exact Er|].
  pose proof (weighted_freq W) as Hw.
  rewrite (sum_counts_perm Hp), sum_counts_wrapped in Hw.
  assert (Hint : int_wrap (freq_or_zero root) = freq_or_zero root).
  { destruct W as [F W]. destruct F as [c f|c f l r Fl Fr].
    - (* a lone leaf: its frequency is an entry of the table *)
      simpl in Hp. apply Permutation_length_1_inv in Hp.
      pose proof (buildFrequencyMap_int text) as Hi. rewrite Hp in Hi.
      apply Forall_inv in Hi. exact Hi.
    - cbn [inner_nodes_sum_children] in W. rewrite (full_not_null Fl) in W.
      cbn [andb orb] in W.
      apply andb_prop in W. destruct W as [W _].
      apply andb_prop in W. destruct W as [W _].
      apply andb_prop in W. destruct W as [_ Ef]. apply Z.eqb_eq in Ef.
      cbn [freq_or_zero]. rewrite Ef. apply int_wrap_idem. }
  rewrite Hint in Hw. destruct W as [F _].
  destruct F; cbn [get_freq freq_or_zero] in *; rewrite Hw; reflexivity.
Qed.

Lemma root_frequency_is_length_witness :
  let text := ["a"%byte; "a"%byte; "a"%byte; "b"%byte; "b"%byte; "c"%byte] in
  text <> []
  /\ exists root,
      @buildHuffmanTree insertion_ordered (buildFrequencyMap text) = Ok root
      /\ get_freq root = Ok (int_wrap (Z.of_nat (length text))).
Proof.
  intros text. assert (N : text <> []) by discriminate.
  split; [exact N|].
  exact (@root_frequency_is_length insertion_ordered insertion_ordered_lawful text N).
Defined.

Lemma codes_depth_bound p k s :
  full p -> In (k, s) (codes p) -> (S (length s) <= length (leaf_chars p))%nat.
Proof.
  intros F. revert k s. induction F as [c f|c f l r Fl IHl Fr IHr]; intros k s I.
  - simpl in I. destruct I as [E|[]]. injection E as _ <-. simpl. lia.
  - rewrite codes_inner in I by assumption.
    rewrite full_leaf_chars_inner, length_app by assumption.
    pose proof (full_leaf_chars_nonempty Fl) as Nl.
    pose proof (full_leaf_chars_nonempty Fr) as Nr.
    assert (0 < length (leaf_chars l))%nat
      by (destruct (leaf_chars l); [congruence | simpl; lia]).
    assert (0 < length (leaf_chars r))%nat
      by (destruct (leaf_chars r); [congruence | simpl; lia]).
    apply in_app_or in I. destruct I as [I|I]; apply in_map_iff in I;
      destruct I as [[k' s'] [E I]]; injection E as _ <-; simpl.
    + specialize (IHl _ _ I). lia.
    + specialize (IHr _ _ I). lia.
Qed.

(** X4.  In the code table made from the tree of a table with [n >= 1]
    distinct symbols no code is longer than [n - 1] bits, hence never longer
    than 255 bits. *)
Theorem code_length_bounded {P : Platform} {L : Lawful P}
        (freqMap : unordered_map Z) :
  NoDup (keys freqMap) -> freqMap <> [] ->
  exists root,
    buildHuffmanTree freqMap = Ok root
    /\ forall c code,
        um_find c (generateCodes root [] []) = Some code ->
        (length code <= length freqMap - 1)%nat /\ (length code <= 255)%nat.
Proof.
  intros ND N.
  destruct (@buildHuffmanTree_spec _ _ _ N) as [root [Er Hr]].
  exists root. split; [exact Er|]. intros c code Es.
  apply generateCodes_find in Es; [|exact (@root_NoDup _ _ ND Hr)].
  pose proof (codes_depth_bound _ _ (proj1 Hr) Es) as Hd.
  rewrite (Permutation_length (proj2 Hr)) in Hd.
  unfold keys in Hd. rewrite length_map in Hd.
  pose proof (NoDup_bytes_length ND) as H256.
  unfold keys in H256. rewrite length_map in H256. lia.
Qed.

Lemma code_length_bounded_witness :
  let freqMap := [("a"%byte, 3); ("b"%byte, 2); ("c"%byte, 1)] in
  NoDup (keys freqMap) /\ freqMap <> []
  /\ exists root,
      @buildHuffmanTree insertion_ordered freqMap = Ok root
      /\ forall c code,
          um_find c (generateCodes root [] []) = Some code ->
          (length code <= length freqMap - 1)%nat /\ (length code <= 255)%nat.
Proof.
  intros freqMap.
  assert (ND : NoDup (keys freqMap))
    by (repeat constructor; simpl; intuition discriminate).
  assert (N : freqMap <> []) by discriminate.
  split; [exact ND|]. split; [exact N|].
  exact (@code_length_bounded insertion_ordered insertion_ordered_lawful
           freqMap ND N).
Defined.

(** ** encodeText and the decoding loop *)

Lemma encodeText_closed_form (text : list char)
      (huffmanCode : unordered_map (list bool)) :
  encodeText text huffmanCode
  = if forallb (has_code huffmanCode) text
    then Ok (flat_map (fun c => um_index c [] huffmanCode) text)
    else Fault OutOfRange.
Proof.
  induction text as [|c text IH]; [reflexivity|].
  cbn [encodeText forallb flat_map]. unfold um_at, has_code at 1, um_index at 1.
  destruct (um_find c huffmanCode) as [code|]; cbn [bind andb]; [|reflexivity].
  rewrite IH. destruct (forallb (has_code huffmanCode) text); reflexivity.
Qed.

(** X5.  [encodeText] returns the codes of the characters of the text,
    one after the other in the order of the text, when the table has a
    code for each of them; when some character of the text has no code it
    throws [out_of_range], wherever the character stands. *)
Theorem encodeText_result (text : list char)
        (huffmanCode : unordered_map (list bool)) :
  ((forall c, In c text -> um_find c huffmanCode <> None) ->
   encodeText text huffmanCode
   = Ok (flat_map (fun c => um_index c [] huffmanCode) text))
  /\ ((exists c, In c text /\ um_find c huffmanCode = None) ->
      encodeText text huffmanCode = Fault OutOfRange).
Proof.
  rewrite encodeText_closed_form.
  destruct (forallb (has_code huffmanCode) text) eqn:E.
  - split; [reflexivity|]. intros [c [I En]].
    rewrite forallb_forall in E. specialize (E c I).
    unfold has_code in E. rewrite En in E. discriminate.
  - split; [|reflexivity]. intros H. exfalso.
    assert (Et : forallb (has_code huffmanCode) text = true).
    { apply forallb_forall. intros c I. specialize (H c I). unfold has_code.
      destruct (um_find c huffmanCode); [reflexivity | congruence]. }
    congruence.
Qed.

Lemma encodeText_result_witness :
  encodeText ["b"%byte; "a"%byte] [("a"%byte, [false]); ("b"%byte, [true])]
  = Ok [true; false]
  /\ encodeText ["a"%byte; "z"%byte] [("a"%byte, [false]); ("b"%byte, [true])]
     = Fault OutOfRange.
Proof.
  split.
  - apply (proj1 (encodeText_result ["b"%byte; "a"%byte]
                    [("a"%byte, [false]); ("b"%byte, [true])])).
    intros c [<-|[<-|[]]]; discriminate.
  - apply (proj2 (encodeText_result ["a"%byte; "z"%byte]
                    [("a"%byte, [false]); ("b"%byte, [true])])).
    exists "z"%byte. split; [simpl; auto | reflexivity].
Defined.

Section DecodingMore.
Variable root : Node.
Hypothesis root_full : full root.
Hypothesis root_inner : leaf_node root = false.
Variable huffmanCode : unordered_map (list bool).
Hypothesis table_of_root :
  forall c s, um_find c huffmanCode = Some s -> In (c, s) (codes root).

(** Decoding an encoded text followed by more bits gives the text
    followed by what the other bits decode to. *)
Lemma decode_encodeText_app text :
  forall enc rest, encodeText text huffmanCode = Ok enc ->
  decode root root (enc ++ rest)
  = (out <- decode root root rest ;; Ok (text ++ out)).
Proof.
  induction text as [|ch text IH]; intros enc rest E.
  - injection E as <-. simpl. destruct (decode root root rest); reflexivity.
  - apply encodeText_inv in E. destruct E as [code [tl [Ec [Er ->]]]].
    rewrite <- app_assoc.
    rewrite (@decode_code root root root_full root_inner ch code (tl ++ rest)
               (table_of_root _ Ec)).
    rewrite (IH _ rest Er).
    destruct (decode root root rest); reflexivity.
Qed.

End DecodingMore.

(** X6.  The decoding loop does not check where it stops: bits after the
    last complete code that only begin a code are dropped, and the text is
    returned as if they were not there. *)
Theorem decode_drops_incomplete_tail {P : Platform} {L : Lawful P}
        (freqMap : unordered_map Z) :
  NoDup (keys freqMap) -> (2 <= length freqMap)%nat ->
  exists root,
    buildHuffmanTree freqMap = Ok root
    /\ forall text enc k q u,
        encodeText text (generateCodes root [] []) = Ok enc ->
        um_find k (generateCodes root [] []) = Some (q ++ u) -> u <> [] ->
        decode root root (enc ++ q) = Ok text.
Proof.
  intros ND H2.
  assert (N : freqMap <> []) by (intros ->; simpl in H2; lia).
  destruct (@buildHuffmanTree_spec _ _ _ N) as [root [Er Hr]].
  assert (NDr := @root_NoDup _ _ ND Hr).
  assert (Hin := @root_of_two_is_inner _ _ Hr H2).
  assert (Htab : forall c s, um_find c (generateCodes root [] []) = Some s ->
                             In (c, s) (codes root))
    by (intros c s Es; apply generateCodes_find in Es; assumption).
  exists root. split; [exact Er|]. intros text enc k q u Ee Ek Nu.
  rewrite (@decode_encodeText_app root (proj1 Hr) Hin _ Htab text enc q Ee).
  rewrite (@decode_partial root root (proj1 Hr) Hin k q u Nu (Htab _ _ Ek)).
  cbn [bind]. rewrite app_nil_r. reflexivity.
Qed.

Lemma decode_drops_incomplete_tail_witness :
  let freqMap := [("a"%byte, 3); ("b"%byte, 2); ("c"%byte, 1)] in
  NoDup (keys freqMap) /\ (2 <= length freqMap)%nat
  /\ exists root,
      @buildHuffmanTree insertion_ordered freqMap = Ok root
      /\ forall text enc k q u,
          encodeText text (generateCodes root [] []) = Ok enc ->
          um_find k (generateCodes root [] []) = Some (q ++ u) -> u <> [] ->
          decode root root (enc ++ q) = Ok text.
Proof.
  intros freqMap.
  assert (ND : NoDup (keys freqMap))
    by (repeat constructor; simpl; intuition discriminate).
  assert (H2 : (2 <= length freqMap)%nat) by (simpl; lia).
  split; [exact ND|]. split; [exact H2|].
  exact (@decode_drops_incomplete_tail insertion_ordered insertion_ordered_lawful
           freqMap ND H2).
Defined.

(** Every character put by the loop has used up at least one bit. *)
Lemma decode_length root (encodedText : list bool) :
  forall current out,
    decode root current encodedText = Ok out ->
    (length out <= length encodedText)%nat.
Proof.
  induction encodedText as [|bit rest IH]; intros current out E.
  - injection E as <-. simpl. lia.
  - cbn [decode] in E.
    destruct (if bit then get_right current else get_left current)
      as [current'|] eqn:Ec; cbn [bind] in E; [|discriminate].
    destruct (is_leaf current') as [[|]|] eqn:El; cbn [bind] in E;
      [| |discriminate].
    + destruct (get_ch current') as [ch|]; cbn [bind] in E; [|discriminate].
      destruct (decode root root rest) as [out'|] eqn:Ed; cbn [bind] in E;
        [|discriminate].
      injection E as <-. specialize (IH _ _ Ed). simpl. lia.
    + specialize (IH _ _ E). simpl. lia.
Qed.

(** When the root is a leaf the first bit leads to [nullptr], which the
    loop dereferences at once. *)
Lemma decode_leaf_root c f bit rest :
  decode (new_Node c f nullptr nullptr) (new_Node c f nullptr nullptr) (bit :: rest)
  = Fault NullDereference.
Proof. destruct bit; reflexivity. Qed.

(** ** readFrequencyMap *)

Lemma read_enough n (s : ifstream) :
  (n <= length s)%nat -> read n s = Ok (firstn n s, skipn n s).
Proof.
  intros H. unfold read. apply Nat.leb_le in H. rewrite H. reflexivity.
Qed.

Lemma read_short n (s : ifstream) :
  (length s < n)%nat -> read n s = Fault UninitializedRead.
Proof.
  intros H. unfold read. apply Nat.leb_gt in H. rewrite H. reflexivity.
Qed.

Lemma Forall_assign (V : Type) (Pr : char * V -> Prop) k v (m : unordered_map V) :
  Forall Pr m -> Pr (k, v) -> Forall Pr (um_assign k v m).
Proof.
  intros Hm Hk. induction m as [|[k' v'] m IH]; simpl.
  - constructor; [exact Hk | constructor].
  - inversion Hm; subst. destruct (Byte.eqb k k'); constructor; auto.
Qed.

Section ReadingTables.
Context {P : Platform}.

(** The entries are read when five bytes are there for each of them, and
    then exactly these bytes are consumed. *)
Lemma read_entries_consumes (n : nat) :
  forall acc (s : ifstream),
    ((5 * n <= length s)%nat ->
     exists m, read_entries n acc s = Ok (m, skipn (5 * n) s))
    /\ ((length s < 5 * n)%nat ->
        read_entries n acc s = Fault UninitializedRead).
Proof.
  induction n as [|n IH]; intros acc s.
  - split; [intros _; exists acc; reflexivity | simpl; lia].
  - cbn [read_entries].
    destruct (Nat.le_gt_cases 1 (length s)) as [H1|H1];
      [|split; [lia | intros _; rewrite read_short by lia; reflexivity]].
    rewrite read_enough by exact H1. cbn [bind].
    destruct (Nat.le_gt_cases 4 (length (skipn 1 s))) as [H4|H4];
      [|split; [rewrite length_skipn in H4; lia
               | intros _; rewrite read_short by lia; reflexivity]].
    rewrite read_enough by exact H4. cbn [bind].
    rewrite skipn_skipn. change (4 + 1)%nat with 5%nat.
    rewrite length_skipn in H4.
    destruct (IH (um_assign (hd x00 (firstn 1 s))
                            (int_wrap (object_value (firstn 4 (skipn 1 s)))) acc)
                 (skipn 5 s)) as [IHok IHbad].
    rewrite length_skipn in IHok, IHbad.
    split; intros H.
    + destruct IHok as [m Em]; [lia|]. exists m. rewrite Em, skipn_skipn.
      do 3 f_equal. lia.
    + apply IHbad. lia.
Qed.

(** What was read is a map: distinct keys, values that are [int]s, and
    no more entries than were announced. *)
Lemma read_entries_map (n : nat) :
  forall acc (s : ifstream) m rest,
    read_entries n acc s = Ok (m, rest) ->
    NoDup (keys acc) -> Forall (fun e => int_wrap (snd e) = snd e) acc ->
    NoDup (keys m) /\ Forall (fun e => int_wrap (snd e) = snd e) m
    /\ (length m <= length acc + n)%nat.
Proof.
  induction n as [|n IH]; intros acc s m rest E ND Hint.
  - injection E as <- <-. repeat split; auto. lia.
  - cbn [read_entries] in E.
    destruct (read 1 s) as [[chb s1]|]; cbn [bind] in E; [|discriminate].
    destruct (read 4 s1) as [[freqb s2]|]; cbn [bind] in E; [|discriminate].
    apply IH in E.
    + destruct E as [ND' [Hint' Hl]]. repeat split; auto.
      rewrite length_assign in Hl. destruct (um_find (hd x00 chb) acc); lia.
    + apply NoDup_keys_assign, ND.
    + apply Forall_assign; [exact Hint | apply int_wrap_idem].
Qed.

End ReadingTables.

(** X7.  [readFrequencyMap] reads the 2-byte count [n] and then [n]
    entries of five bytes: with at least [2 + 5 n] bytes in the stream it
    returns a table and leaves the stream after exactly these bytes; with
    fewer it uses a variable that no read has filled (no error is raised by
    the code). *)
Theorem readFrequencyMap_consumes {P : Platform} (inFile : ifstream) :
  let n := Z.to_nat (object_value (firstn 2 inFile)) in
  ((2 <= length inFile)%nat /\ (2 + 5 * n <= length inFile)%nat ->
   exists freqMap,
     readFrequencyMap inFile = Ok (freqMap, skipn (2 + 5 * n) inFile))
  /\ ((length inFile < 2)%nat \/ (length inFile < 2 + 5 * n)%nat ->
      readFrequencyMap inFile = Fault UninitializedRead).
Proof.
  intros n. unfold readFrequencyMap.
  destruct (Nat.le_gt_cases 2 (length inFile)) as [H2|H2].
  - rewrite read_enough by exact H2. cbn [bind]. fold n.
    destruct (read_entries_consumes n [] (skipn 2 inFile)) as [Hok Hbad].
    rewrite length_skipn in Hok, Hbad. split.
    + intros [_ H]. destruct Hok as [m Em]; [lia|].
      exists m. rewrite Em, skipn_skipn. do 3 f_equal. lia.
    + intros [H|H]; [lia|]. apply Hbad. lia.
  - rewrite read_short by exact H2. split; [lia | reflexivity].
Qed.

(** X8.  Whatever the bytes of the stream, a table returned by
    [readFrequencyMap] has distinct symbols, at most 256 entries and no
    more than the count announced in the first two bytes, and frequencies
    in the range of [int]: a repeated symbol overwrites its entry. *)
Theorem readFrequencyMap_returns_map {P : Platform} (inFile : ifstream)
        (freqMap : unordered_map Z) (rest : ifstream) :
  readFrequencyMap inFile = Ok (freqMap, rest) ->
  NoDup (keys freqMap)
  /\ (length freqMap <= 256)%nat
  /\ (length freqMap <= Z.to_nat (object_value (firstn 2 inFile)))%nat
  /\ Forall (fun e => - 2 ^ 31 <= snd e < 2 ^ 31) freqMap.
Proof.
  unfold readFrequencyMap. intros E.
  destruct (read 2 inFile) as [[sizeb s1]|] eqn:Er; cbn [bind] in E; [|discriminate].
  assert (Es : sizeb = firstn 2 inFile).
  { unfold read in Er. destruct (2 <=? length inFile)%nat; [|discriminate].
    injection Er as <- _. reflexivity. }
  subst sizeb.
  apply read_entries_map in E; [|constructor|constructor].
  destruct E as [ND [Hint Hl]]. split; [exact ND|].
  split; [rewrite <- (length_map (@fst char Z)); apply NoDup_bytes_length, ND|].
  split; [simpl in Hl; exact Hl|].
  eapply Forall_impl; [|exact Hint]. intros e He. cbv beta in He.
  rewrite <- He. apply int_wrap_range.
Qed.

Lemma readFrequencyMap_returns_map_witness :
  let inFile := [x03; x00; "a"%byte; x01; x00; x00; x00;
                 "b"%byte; x02; x00; x00; x00; "a"%byte; x07; x00; x00; x00;
                 x00] in
  @readFrequencyMap insertion_ordered inFile
  = Ok ([("a"%byte, 7); ("b"%byte, 2)], [x00])
  /\ NoDup (keys [("a"%byte, 7); ("b"%byte, 2)])
  /\ (length [("a"%byte, 7); ("b"%byte, 2)] <= 256)%nat
  /\ (length [("a"%byte, 7); ("b"%byte, 2)]
      <= Z.to_nat (@object_value insertion_ordered (firstn 2 inFile)))%nat
  /\ Forall (fun e => - 2 ^ 31 <= snd e < 2 ^ 31) [("a"%byte, 7); ("b"%byte, 2)].
Proof.
  intros inFile.
  assert (E : @readFrequencyMap insertion_ordered inFile
              = Ok ([("a"%byte, 7); ("b"%byte, 2)], [x00])) by reflexivity.
  split; [exact E|].
  exact (@readFrequencyMap_returns_map insertion_ordered inFile _ _ E).
Defined.

Lemma um_find_perm (m m' : unordered_map Z) k :
  Permutation m' m -> NoDup (keys m) -> um_find k m' = um_find k m.
Proof.
  intros Hp ND.
  assert (ND' : NoDup (keys m')).
  { eapply Permutation_NoDup; [|exact ND].
    apply Permutation_sym, Permutation_map, Hp. }
  destruct (um_find k m) as [v|] eqn:E.
  - apply um_find_Some_In in E. apply In_um_find; [exact ND'|].
    apply (Permutation_in _ (Permutation_sym Hp)), E.
  - apply um_find_None in E. apply um_find_None. intros I. apply E.
    apply (Permutation_in _ (Permutation_map fst Hp)), I.
Qed.

(** X9.  A table written by [writeFrequencyMap] and read back by
    [readFrequencyMap] has the same entries -- every symbol is found with
    the frequency it had -- and the bytes after the table are left in the
    stream. *)
Theorem frequency_table_round_trip {P : Platform} {L : Lawful P}
        (freqMap : unordered_map Z) (rest : list byte) :
  NoDup (keys freqMap) ->
  Forall (fun e => - 2 ^ 31 <= snd e < 2 ^ 31) freqMap ->
  exists freqMap',
    readFrequencyMap (writeFrequencyMap freqMap ++ rest) = Ok (freqMap', rest)
    /\ Permutation freqMap' freqMap
    /\ forall c, um_find c freqMap' = um_find c freqMap.
Proof.
  intros ND Hr. exists (iterate freqMap).
  split; [|split].
  - apply readFrequencyMap_written; [apply iterate_perm | exact ND|].
    eapply Forall_impl; [|exact Hr]. intros e He. apply int_wrap_small, He.
  - apply iterate_perm.
  - intros c. apply um_find_perm; [apply iterate_perm | exact ND].
Qed.

Lemma frequency_table_round_trip_witness :
  let freqMap := [("a"%byte, 3); ("b"%byte, 2); ("c"%byte, 1)] in
  NoDup (keys freqMap)
  /\ Forall (fun e => - 2 ^ 31 <= snd e < 2 ^ 31) freqMap
  /\ exists freqMap',
      @readFrequencyMap head_linked
        (@writeFrequencyMap head_linked freqMap ++ [x07; x1f; x00])
      = Ok (freqMap', [x07; x1f; x00])
      /\ Permutation freqMap' freqMap
      /\ forall c, um_find c freqMap' = um_find c freqMap.
Proof.
  intros freqMap.
  assert (ND : NoDup (keys freqMap))
    by (repeat constructor; simpl; intuition discriminate).
  assert (Hr : Forall (fun e => - 2 ^ 31 <= snd e < 2 ^ 31) freqMap)
    by (repeat constructor; simpl; lia).
  split; [exact ND|]. split; [exact Hr|].
  exact (@frequency_table_round_trip head_linked head_linked_lawful
           freqMap [x07; x1f; x00] ND Hr).
Defined.

(** ** readEncodedData and writeEncodedData *)

Lemma bits_of_bytes_length (bytes : list byte) :
  length (flat_map bitset_to_string bytes) = (8 * length bytes)%nat.
Proof.
  induction bytes as [|b bytes IH]; [reflexivity|].
  cbn [flat_map]. rewrite length_app, IH, bitset_to_string_length.
  simpl length. lia.
Qed.

Lemma readEncodedData_cons (p : byte) (bytes : list byte) :
  readEncodedData (p :: bytes)
  = if (0 <? byte_to_Z p) && negb (Nat.eqb (8 * length bytes) 0)
    then if byte_to_Z p <=? Z.of_nat (8 * length bytes)
         then Ok (byte_to_Z p,
                  firstn (8 * length bytes - Z.to_nat (byte_to_Z p))
                         (flat_map bitset_to_string bytes))
         else Fault EraseOutOfBounds
    else Ok (byte_to_Z p, flat_map bitset_to_string bytes).
Proof.
  unfold readEncodedData.
  change (read 1 (p :: bytes)) with (read (length [p]) ([p] ++ bytes)).
  rewrite read_app. cbn [bind hd]. rewrite bits_of_bytes_length. reflexivity.
Qed.

(** X10.  [readEncodedData] takes the first byte as the number of bits
    to strip and does not check that it is below 8: every value up to the
    number of bits that follow is accepted and that many trailing bits are
    removed; a larger value erases before the beginning of the string;
    with no byte after it the count is ignored; an empty stream leaves the
    count unread. *)
Theorem readEncodedData_cases (inFile : ifstream) :
  match inFile with
  | [] => readEncodedData inFile = Fault UninitializedRead
  | p :: bytes =>
      let padding := byte_to_Z p in
      let bits := flat_map bitset_to_string bytes in
      (bytes = [] -> readEncodedData inFile = Ok (padding, []))
      /\ (padding <= Z.of_nat (8 * length bytes) ->
          readEncodedData inFile
          = Ok (padding, firstn (8 * length bytes - Z.to_nat padding) bits)
          /\ Z.of_nat (length (firstn (8 * length bytes - Z.to_nat padding) bits))
             = Z.of_nat (8 * length bytes) - padding)
      /\ (bytes <> [] -> Z.of_nat (8 * length bytes) < padding ->
          readEncodedData inFile = Fault EraseOutOfBounds)
  end.
Proof.
  destruct inFile as [|p bytes]; [reflexivity|]. cbv zeta.
  pose proof (byte_to_Z_range p) as Hp.
  rewrite readEncodedData_cons.
  split; [|split].
  - intros ->. simpl. rewrite andb_false_r. reflexivity.
  - intros Hle. split.
    + destruct (0 <? byte_to_Z p) eqn:E0; cbn [andb].
      * destruct (Nat.eqb (8 * length bytes) 0) eqn:En; cbn [negb].
        -- apply Nat.eqb_eq in En. apply Z.ltb_lt in E0. lia.
        -- apply Z.leb_le in Hle. rewrite Hle. reflexivity.
      * apply Z.ltb_ge in E0. replace (byte_to_Z p) with 0 by lia.
        rewrite Nat.sub_0_r, <- bits_of_bytes_length, firstn_all. reflexivity.
    + rewrite length_firstn, bits_of_bytes_length. lia.
  - intros N Hlt.
    assert (0 < length bytes)%nat by (destruct bytes; [congruence | simpl; lia]).
    destruct (0 <? byte_to_Z p) eqn:E0; [|apply Z.ltb_ge in E0; lia].
    destruct (Nat.eqb (8 * length bytes) 0) eqn:En;
      [apply Nat.eqb_eq in En; lia|].
    cbn [andb negb]. apply Z.leb_gt in Hlt. rewrite Hlt. reflexivity.
Qed.

Lemma bitset_string_round_trip (b : byte) :
  Z_to_byte (uint8_wrap (bitset_to_ulong (bitset_to_string b))) = b.
Proof. destruct b; vm_compute; reflexivity. Qed.

Lemma write_bytes_of_bytes (bytes : list byte) :
  forall fuel, (length bytes <= fuel)%nat ->
  write_bytes fuel (flat_map bitset_to_string bytes) = bytes.
Proof.
  induction bytes as [|b bytes IH]; intros fuel Hf.
  - apply write_bytes_nil.
  - destruct fuel as [|fuel]; [simpl in Hf; lia|].
    cbn [flat_map]. rewrite write_bytes_chunk by apply bitset_to_string_length.
    rewrite bitset_string_round_trip, IH by (simpl in Hf; lia). reflexivity.
Qed.

(** X11.  Packing is the inverse of unpacking: the bits that
    [readEncodedData] makes of a sequence of bytes are written back by
    [writeEncodedData] as the padding byte 0 followed by these bytes. *)
Theorem writeEncodedData_of_bytes (bytes : list byte) :
  readEncodedData (x00 :: bytes) = Ok (0, flat_map bitset_to_string bytes)
  /\ writeEncodedData (flat_map bitset_to_string bytes) = x00 :: bytes.
Proof.
  split; [rewrite readEncodedData_cons; reflexivity|].
  unfold writeEncodedData.
  assert (Ep : padding_for (flat_map bitset_to_string bytes) = 0).
  { rewrite padding_for_formula, bits_of_bytes_length.
    rewrite Nat2Z.inj_mul, Z.mul_comm, Z_mod_mult. reflexivity. }
  rewrite Ep. cbn [Z.to_nat repeat]. rewrite app_nil_r. f_equal.
  apply write_bytes_of_bytes. rewrite bits_of_bytes_length. lia.
Qed.

Lemma frequency_counts_occurrences_witness :
  um_find "a"%byte (buildFrequencyMap ["a"%byte; "b"%byte; "a"%byte])
  = Some (int_wrap (occurrences ["a"%byte; "b"%byte; "a"%byte] "a"%byte))
  /\ um_find "c"%byte (buildFrequencyMap ["a"%byte; "b"%byte; "a"%byte]) = None.
Proof.
  split.
  - apply (proj1 (frequency_counts_occurrences
                    ["a"%byte; "b"%byte; "a"%byte] "a"%byte)).
    simpl. auto.
  - apply (proj2 (frequency_counts_occurrences
                    ["a"%byte; "b"%byte; "a"%byte] "c"%byte)).
    simpl. intuition discriminate.
Defined.

Lemma readFrequencyMap_consumes_witness :
  (exists freqMap,
      @readFrequencyMap insertion_ordered
        [x01; x00; "a"%byte; x03; x00; x00; x00; x00; x80]
      = Ok (freqMap, [x00; x80]))
  /\ @readFrequencyMap insertion_ordered [x01; x00; "a"%byte; x03; x00; x00]
     = Fault UninitializedRead.
Proof.
  split.
  - apply (proj1 (@readFrequencyMap_consumes insertion_ordered
                    [x01; x00; "a"%byte; x03; x00; x00; x00; x00; x80])).
    split; vm_compute; lia.
  - apply (proj2 (@readFrequencyMap_consumes insertion_ordered
                    [x01; x00; "a"%byte; x03; x00; x00])).
    right. vm_compute. lia.
Defined.

Lemma readEncodedData_cases_witness :
  readEncodedData [x06; x40] = Ok (6, [false; true])
  /\ readEncodedData [x09; x40] = Fault EraseOutOfBounds.
Proof.
  split.
  - apply (proj1 (proj2 (readEncodedData_cases [x06; x40]))). vm_compute. discriminate.
  - apply (proj2 (proj2 (readEncodedData_cases [x09; x40]))).
    + discriminate.
    + vm_compute. reflexivity.
Defined.

(** ** Whole runs, again *)

(** X12.  A container whose table has one entry and whose bit stream is
    not empty makes [decompress] dereference [nullptr]: the root of the
    rebuilt tree is a leaf, and the first bit leads to a null child. *)
Theorem single_entry_container_faults {P : Platform} {L : Lawful P}
        (c : char) (f : Z) (p : byte) (bytes : list byte) :
  byte_to_Z p <= 7 -> bytes <> [] ->
  decompress (writeFrequencyMap [(c, f)] ++ p :: bytes) = Fault NullDereference.
Proof.
  intros Hp Nb. unfold decompress, readFrequencyMap, writeFrequencyMap.
  rewrite iterate_singleton. rewrite <- app_assoc.
  rewrite <- (object_bytes_length 2 (uint16_wrap (Z.of_nat (length [(c, f)])))) at 1.
  rewrite read_app. cbn [bind]. rewrite object_value_bytes.
  change (Z.to_nat (uint16_wrap (Z.of_nat (length [(c, f)])) mod 256 ^ Z.of_nat 2))
    with (length [(c, f)]).
  rewrite read_entries_written. cbn [fold_left bind].
  unfold reassign. cbn [um_assign fst snd].
  rewrite buildHuffmanTree_singleton. cbn [bind].
  pose proof (byte_to_Z_range p) as Hr.
  assert (Hl : (0 < length bytes)%nat) by (destruct bytes; [congruence | simpl; lia]).
  rewrite readEncodedData_cons.
  assert (En : Nat.eqb (8 * length bytes) 0 = false) by (apply Nat.eqb_neq; lia).
  assert (El : (byte_to_Z p <=? Z.of_nat (8 * length bytes)) = true)
    by (apply Z.leb_le; lia).
  rewrite En, El. cbn [negb].
  assert (Hbits : forall n bits,
             length bits = (8 * length bytes)%nat -> (n < 8)%nat ->
             decode (new_Node c (int_wrap f) nullptr nullptr)
                    (new_Node c (int_wrap f) nullptr nullptr)
                    (firstn (8 * length bytes - n) bits)
             = Fault NullDereference).
  { intros n bits Hb Hn.
    destruct (firstn (8 * length bytes - n) bits) as [|bit rest] eqn:Ef.
    - apply (f_equal (@length bool)) in Ef. rewrite length_firstn in Ef.
      simpl in Ef. lia.
    - apply decode_leaf_root. }
  destruct (0 <? byte_to_Z p) eqn:E0; cbn [andb bind].
  - apply Hbits; [apply bits_of_bytes_length | lia].
  - rewrite <- (firstn_all (flat_map bitset_to_string bytes)).
    rewrite bits_of_bytes_length, <- (Nat.sub_0_r (8 * length bytes)).
    apply Hbits; [apply bits_of_bytes_length | lia].
Qed.

Lemma single_entry_container_faults_witness :
  byte_to_Z x00 <= 7 /\ [x80] <> []
  /\ @decompress insertion_ordered
       (@writeFrequencyMap insertion_ordered [("A"%byte, 3)] ++ x00 :: [x80])
     = Fault NullDereference.
Proof.
  assert (H7 : byte_to_Z x00 <= 7) by (vm_compute; discriminate).
  assert (N : [x80] <> []) by discriminate.
  split; [exact H7|]. split; [exact N|].
  exact (@single_entry_container_faults insertion_ordered insertion_ordered_lawful
           "A"%byte 3 x00 [x80] H7 N).
Defined.

Lemma readFrequencyMap_rest {P : Platform} (inFile : ifstream) freqMap rest :
  readFrequencyMap inFile = Ok (freqMap, rest) ->
  (length rest + 2 <= length inFile)%nat.
Proof.
  unfold readFrequencyMap, read at 1.
  destruct (2 <=? length inFile)%nat eqn:E2; cbn [bind]; [|discriminate].
  apply Nat.leb_le in E2. intros E.
  destruct (read_entries_consumes
              (Z.to_nat (object_value (firstn 2 inFile))) [] (skipn 2 inFile))
    as [Hok Hbad].
  rewrite length_skipn in Hok, Hbad.
  destruct (Nat.le_gt_cases
              (5 * Z.to_nat (object_value (firstn 2 inFile))) (length inFile - 2))
    as [H|H].
  - destruct (Hok H) as [m Em]. rewrite Em in E.
    assert (Hrest : rest
                    = skipn (5 * Z.to_nat (object_value (firstn 2 inFile)))
                            (skipn 2 inFile)) by congruence.
    rewrite Hrest, !length_skipn. lia.
  - rewrite (Hbad H) in E. discriminate.
Qed.

Lemma readEncodedData_length (inFile : ifstream) padding bits :
  readEncodedData inFile = Ok (padding, bits) ->
  (length bits + 8 <= 8 * length inFile)%nat.
Proof.
  destruct inFile as [|p bytes]; [discriminate|].
  rewrite readEncodedData_cons. intros E. simpl length.
  destruct ((0 <? byte_to_Z p) && negb (Nat.eqb (8 * length bytes) 0)).
  - destruct (byte_to_Z p <=? Z.of_nat (8 * length bytes)); [|discriminate].
    assert (Hb : bits = firstn (8 * length bytes - Z.to_nat (byte_to_Z p))
                               (flat_map bitset_to_string bytes)) by congruence.
    rewrite Hb, length_firstn, bits_of_bytes_length. lia.
  - assert (Hb : bits = flat_map bitset_to_string bytes) by congruence.
    rewrite Hb, bits_of_bytes_length. lia.
Qed.

(** X13.  Every character that [decompress] puts out has cost at least
    one bit of the bit stream: the output is never longer than eight times
    the container without its three fixed bytes. *)
Theorem decompress_output_bounded {P : Platform} (inFile : ifstream)
        (out : list char) :
  decompress inFile = Ok out ->
  (length out <= 8 * (length inFile - 3))%nat.
Proof.
  unfold decompress. intros E.
  destruct (readFrequencyMap inFile) as [[freqMap rest]|] eqn:Er;
    cbn [bind] in E; [|discriminate].
  destruct (buildHuffmanTree freqMap) as [root|]; cbn [bind] in E; [|discriminate].
  destruct (readEncodedData rest) as [[padding bits]|] eqn:Ed;
    cbn [bind] in E; [|discriminate].
  apply readFrequencyMap_rest in Er. apply readEncodedData_length in Ed.
  apply decode_length in E. lia.
Qed.

Lemma decompress_output_bounded_witness :
  let inFile := [x02; x00; "a"%byte; x01; x00; x00; x00;
                 "b"%byte; x01; x00; x00; x00; x06; x40] in
  @decompress insertion_ordered inFile = Ok ["a"%byte; "b"%byte]
  /\ (length ["a"%byte; "b"%byte] <= 8 * (length inFile - 3))%nat.
Proof.
  intros inFile.
  assert (E : @decompress insertion_ordered inFile = Ok ["a"%byte; "b"%byte])
    by reflexivity.
  split; [exact E|].
  exact (@decompress_output_bounded insertion_ordered inFile _ E).
Defined.

Lemma writeFrequencyMap_length {P : Platform} {L : Lawful P}
      (freqMap : unordered_map Z) :
  length (writeFrequencyMap freqMap) = (2 + 5 * length freqMap)%nat.
Proof.
  unfold writeFrequencyMap. rewrite length_app, object_bytes_length.
  rewrite <- (Permutation_length (iterate_perm freqMap)). f_equal.
  induction (iterate freqMap) as [|e l IH]; [reflexivity|].
  cbn [flat_map]. rewrite length_app, IH. unfold write_entry.
  cbn [length]. rewrite object_bytes_length. simpl. lia.
Qed.

Lemma writeEncodedData_length (encodedText : list bool) :
  length (writeEncodedData encodedText)
  = (1 + (length encodedText + 7) / 8)%nat.
Proof.
  unfold writeEncodedData. cbn [length].
  pose proof (padding_for_range encodedText) as Hr.
  destruct (padding_for_aligns encodedText) as [k Hk].
  set (padding := padding_for encodedText) in *.
  destruct (@write_bytes_read k
              (length (encodedText ++ repeat false (Z.to_nat padding)))
              (encodedText ++ repeat false (Z.to_nat padding))) as [_ ->];
    try (rewrite length_app, repeat_length; lia).
  assert (Hdiv : ((length encodedText + 7) / 8 = k)%nat).
  { symmetry. apply (Nat.div_unique _ 8 k (7 - Z.to_nat padding)); lia. }
  rewrite Hdiv. reflexivity.
Qed.

(** X14.  The size of the container of a non-empty buffer: two bytes of
    count, five bytes for each distinct byte value of the buffer, the
    padding byte, and the encoded bits rounded up to whole bytes. *)
Theorem container_size {P : Platform} {L : Lawful P} (text : list char) :
  text <> [] ->
  exists container encodedText,
    compress text = Ok container
    /\ (huffmanCode <- code_table text ;; encodeText text huffmanCode)
       = Ok encodedText
    /\ length container
       = (3 + 5 * length (nodup Byte.byte_eq_dec text)
          + (length encodedText + 7) / 8)%nat.
Proof.
  intros N.
  destruct (@compress_spec _ _ text N) as [root [enc [Er [Hr [Ee Ec]]]]].
  exists (writeFrequencyMap (buildFrequencyMap text) ++ writeEncodedData enc), enc.
  split; [exact Ec|]. split.
  - unfold code_table. rewrite Er. cbn [bind]. exact Ee.
  - rewrite length_app, writeFrequencyMap_length, writeEncodedData_length.
    assert (Hk : length (buildFrequencyMap text)
                 = length (nodup Byte.byte_eq_dec text)).
    { rewrite <- (length_map (@fst char Z)). apply Permutation_length.
      apply NoDup_Permutation;
        [apply buildFrequencyMap_NoDup | apply NoDup_nodup|].
      intros c. rewrite nodup_In. apply buildFrequencyMap_keys. }
    rewrite Hk. lia.
Qed.

Lemma container_size_witness :
  let text := ["a"%byte; "a"%byte; "a"%byte; "b"%byte; "b"%byte; "c"%byte] in
  text <> []
  /\ exists container encodedText,
      @compress insertion_ordered text = Ok container
      /\ (huffmanCode <- @code_table insertion_ordered text ;;
          encodeText text huffmanCode) = Ok encodedText
      /\ length container
         = (3 + 5 * length (nodup Byte.byte_eq_dec text)
            + (length encodedText + 7) / 8)%nat.
Proof.
  intros text. assert (N : text <> []) by discriminate.
  split; [exact N|].
  exact (@container_size insertion_ordered insertion_ordered_lawful text N).
Defined.

(** ** The program with its files *)

Lemma files_print w s message : files (print w s message) = files w.
Proof. reflexivity. Qed.

Lemma files_write_other w name content n :
  n <> name -> files (write_file w name content) n = files w n.
Proof.
  intros N. cbn [files write_file].
  destruct (String.eqb_spec n name); [contradiction | reflexivity].
Qed.

Lemma files_write_same w name content :
  files (write_file w name content) name = Some content.
Proof. cbn [files write_file]. rewrite String.eqb_refl. reflexivity. Qed.

Lemma compress_file_leaves {P : Platform} input output w w' :
  compress_file input output w = Ok w' -> leaves_other_files w w' input output.
Proof.
  unfold compress_file, leaves_other_files. intros E.
  destruct (files w input) as [text|] eqn:Ei.
  - destruct (compress text) as [container|]; cbn [bind] in E; [|discriminate].
    destruct (creatable w output); injection E as <-.
    + repeat split; try discriminate.
      * intros n N. rewrite files_print. apply files_write_other, N.
      * eexists _, _. reflexivity.
    + repeat split; try discriminate. eexists _, _. reflexivity.
  - injection E as <-. repeat split. eexists _, _. reflexivity.
Qed.

Lemma decompress_file_leaves {P : Platform} input output w w' :
  decompress_file input output w = Ok w' -> leaves_other_files w w' input output.
Proof.
  unfold decompress_file, leaves_other_files. intros E.
  destruct (files w input) as [inFile|] eqn:Ei.
  - destruct (readFrequencyMap inFile) as [[freqMap inFile1]|];
      cbn [bind] in E; [|discriminate].
    destruct (buildHuffmanTree freqMap) as [root|]; cbn [bind] in E; [|discriminate].
    destruct (readEncodedData inFile1) as [[padding encodedText]|];
      cbn [bind] in E; [|discriminate].
    destruct (creatable w output).
    + destruct (decode root root encodedText) as [out|]; cbn [bind] in E;
        [|discriminate].
      injection E as <-. repeat split; try discriminate.
      * intros n N. rewrite files_print. apply files_write_other, N.
      * eexists _, _. reflexivity.
    + injection E as <-. repeat split; try discriminate.
      eexists _, _. reflexivity.
  - injection E as <-. repeat split. eexists _, _. reflexivity.
Qed.



(** X16.  A run of [main] that returns changes at most the file named
    by its last argument: every other file is as before, the names that can
    be created are the same, and what was on the console is still there,
    followed by the new messages; with status 1, or when the input file
    cannot be opened, no file changes at all. *)
Theorem main_touches_only_output {P : Platform} (argv : list String.string)
        (w w' : World) (status : Z) :
  main argv w = Ok (status, w') ->
  (forall n, creatable w' n = creatable w n)
  /\ (forall n, n <> nth 3 argv ""%string -> files w' n = files w n)
  /\ (status = 1 \/ files w (nth 2 argv ""%string) = None ->
      forall n, files w' n = files w n)
  /\ exists messages, messages <> [] /\ console w' = console w ++ messages.
Proof.
  intros E.
  assert (Husage : forall program,
             (forall n, creatable (usage program w) n = creatable w n)
             /\ (forall n, files (usage program w) n = files w n)
             /\ exists messages,
                 messages <> [] /\ console (usage program w) = console w ++ messages).
  { intros program. repeat split. eexists. split; [|unfold usage; cbn [console print];
      rewrite <- !app_assoc; reflexivity]. discriminate. }
  destruct argv as [|a0 [|a1 [|a2 [|a3 [|a4 argv]]]]]; cbn [main] in E;
    try discriminate;
    try (injection E as <- <-; destruct (Husage a0) as [Hc [Hf Hm]];
         repeat split; auto).
  cbn [nth].
  assert (Hrun : forall w1, leaves_other_files w w1 a2 a3 -> status = 0 -> w' = w1 ->
             (forall n, creatable w' n = creatable w n)
             /\ (forall n, n <> a3 -> files w' n = files w n)
             /\ (status = 1 \/ files w a2 = None -> forall n, files w' n = files w n)
             /\ exists messages, messages <> [] /\ console w' = console w ++ messages).
  { intros w1 [Hc [Hf [Hn [s [message Hm]]]]] Hs ->.
    split; [exact Hc|]. split; [exact Hf|]. split.
    - intros [H1|H0]; [lia | exact (Hn H0)].
    - exists [(s, message)]. split; [discriminate | exact Hm]. }
  destruct (String.eqb a1 "-c").
  - destruct (compress_file a2 a3 w) as [w1|] eqn:Ec; cbn [bind] in E; [|discriminate].
    injection E as <- <-. apply (Hrun w1); auto. apply compress_file_leaves, Ec.
  - destruct (String.eqb a1 "-d").
    + destruct (decompress_file a2 a3 w) as [w1|] eqn:Ed; cbn [bind] in E;
        [|discriminate].
      injection E as <- <-. apply (Hrun w1); auto. apply decompress_file_leaves, Ed.
    + injection E as <- <-. repeat split.
      eexists. split; [|reflexivity]. discriminate.
Qed.

Lemma main_touches_only_output_witness :
  let w := {| files := fun n => if String.eqb n "in" then Some ["a"%byte; "b"%byte]
                                else None;
              creatable := fun _ => true; console := [] |} in
  let argv := ["huffman"%string; "-c"%string; "in"%string; "out"%string] in
  exists w',
    @main insertion_ordered argv w = Ok (0, w')
    /\ (forall n, n <> "out"%string -> files w' n = files w n).
Proof.
  intros w argv.
  destruct (@main insertion_ordered argv w) as [[status w']|] eqn:E;
    [|vm_compute in E; discriminate].
  assert (Hs : status = 0) by (vm_compute in E; congruence).
  subst status. exists w'. split; [reflexivity|].
  exact (proj1 (proj2 (@main_touches_only_output insertion_ordered argv w w' 0 E))).
Defined.

Lemma decompress_file_writes {P : Platform} input output w inFile out :
  files w input = Some inFile -> creatable w output = true ->
  decompress inFile = Ok out ->
  decompress_file input output w
  = Ok (print (write_file w output out) cout
              (String.append "File decompressed successfully. Output file: "
                 (String.append output newline))).
Proof.
  intros Ei Ec Ed. unfold decompress_file. rewrite Ei. unfold decompress in Ed.
  destruct (readFrequencyMap inFile) as [[freqMap inFile1]|];
    cbn [bind] in *; [|discriminate].
  destruct (buildHuffmanTree freqMap) as [root|]; cbn [bind] in *; [|discriminate].
  destruct (readEncodedData inFile1) as [[padding encodedText]|];
    cbn [bind] in *; [|discriminate].
  rewrite Ec, Ed. reflexivity.
Qed.

(** X17.  Compressing a file with [main -c] and decompressing the result
    with [main -d] restores the content, for a file with at least two
    different byte values on a platform that iterates the table read back
    like the table written; both runs return 0 and touch no file but their
    output files.  The three file names need not differ: each run reads its
    input completely before it opens its output. *)
Theorem main_round_trip {P : Platform} {L : Lawful P} (w : World)
        (program input packed output : String.string) (text : list char) :
  files w input = Some text ->
  (2 <= length (buildFrequencyMap text))%nat ->
  iterate (iterate (buildFrequencyMap text)) = iterate (buildFrequencyMap text) ->
  creatable w packed = true -> creatable w output = true ->
  exists w1 w2,
    main [program; "-c"%string; input; packed] w = Ok (0, w1)
    /\ main [program; "-d"%string; packed; output] w1 = Ok (0, w2)
    /\ files w2 output = Some text
    /\ forall n, n <> packed -> n <> output -> files w2 n = files w n.
Proof.
  intros Ei H2 Hstable Cp Co.
  pose proof (round_trip_two_symbols text H2 Hstable) as Hrt.
  unfold round_trip in Hrt.
  destruct (compress text) as [container|] eqn:Ec; cbn [bind] in Hrt; [|discriminate].
  eexists _, _. split; [|split; [|split]].
  - cbn [main]. change (String.eqb "-c" "-c") with true. cbv iota.
    unfold compress_file. rewrite Ei, Ec. cbn [bind]. rewrite Cp. reflexivity.
  - cbn [main]. change (String.eqb "-d" "-c") with false.
    change (String.eqb "-d" "-d") with true. cbv iota.
    rewrite (@decompress_file_writes _ packed output _ container text);
      [reflexivity | | exact Co | exact Hrt].
    rewrite files_print. apply files_write_same.
  - rewrite files_print. apply files_write_same.
  - intros n Np No. rewrite files_print, files_write_other by exact No.
    rewrite files_print. apply files_write_other, Np.
Qed.

Lemma main_round_trip_witness :
  let text := ["a"%byte; "a"%byte; "a"%byte; "b"%byte; "b"%byte; "c"%byte] in
  let w := {| files := fun n => if String.eqb n "notes.txt" then Some text else None;
              creatable := fun _ => true; console := [] |} in
  exists w1 w2,
    @main insertion_ordered
      ["huffman"%string; "-c"%string; "notes.txt"%string; "notes.txt"%string] w
    = Ok (0, w1)
    /\ @main insertion_ordered
         ["huffman"%string; "-d"%string; "notes.txt"%string; "notes.txt"%string] w1
       = Ok (0, w2)
    /\ files w2 "notes.txt"%string = Some text
    /\ forall n, n <> "notes.txt"%string -> n <> "notes.txt"%string ->
                 files w2 n = files w n.
Proof.
  intros text w.
  apply (@main_round_trip insertion_ordered insertion_ordered_lawful w
           "huffman"%string "notes.txt"%string "notes.txt"%string
           "notes.txt"%string text).
  - reflexivity.
  - vm_compute. lia.
  - reflexivity.
  - reflexivity.
  - reflexivity.
Defined.

(** X18.  [compress] followed by [decompress] returns the buffer when it
    has at least two different byte values and the table read from the
    container is iterated like the table that was written; the container
    may be followed by nothing else, and [compress] itself never fails on
    such a buffer. *)
Theorem compress_then_decompress {P : Platform} {L : Lawful P}
        (text : list char) :
  (2 <= length (buildFrequencyMap text))%nat ->
  iterate (iterate (buildFrequencyMap text)) = iterate (buildFrequencyMap text) ->
  exists container,
    compress text = Ok container /\ decompress container = Ok text.
Proof.
  intros H2 Hstable.
  pose proof (round_trip_two_symbols text H2 Hstable) as Hrt.
  unfold round_trip in Hrt.
  destruct (compress text) as [container|]; cbn [bind] in Hrt; [|discriminate].
  exists container. split; [reflexivity | exact Hrt].
Qed.

Lemma compress_then_decompress_witness :
  let text := ["a"%byte; "a"%byte; "a"%byte; "b"%byte; "b"%byte; "c"%byte] in
  (2 <= length (buildFrequencyMap text))%nat
  /\ @iterate insertion_ordered (@iterate insertion_ordered (buildFrequencyMap text))
     = @iterate insertion_ordered (buildFrequencyMap text)
  /\ exists container,
      @compress insertion_ordered text = Ok container
      /\ @decompress insertion_ordered container = Ok text.
Proof.
  intros text.
  assert (H2 : (2 <= length (buildFrequencyMap text))%nat) by (vm_compute; lia).
  split; [exact H2|]. split; [reflexivity|].
  exact (@compress_then_decompress insertion_ordered insertion_ordered_lawful
           text H2 eq_refl).
Defined.

(** ** The length of the encoded text *)

Lemma encoded_bits_assign k v (m : unordered_map Z) hc :
  encoded_bits (um_assign k v m) hc
  = encoded_bits m hc
    + (v - um_index k 0 m) * Z.of_nat (length (um_index k [] hc)).
Proof.
  unfold encoded_bits.
  set (len := fun c : char => Z.of_nat (length (um_index c [] hc))).
  change (fun e : char * Z => snd e * Z.of_nat (length (um_index (fst e) [] hc)))
    with (fun e : char * Z => snd e * len (fst e)).
  change (Z.of_nat (length (um_index k [] hc))) with (len k).
  unfold um_index. generalize len. clear len. intros len.
  induction m as [|[k0 v0] m IH]; cbn [um_assign um_find map fold_right fst snd].
  - lia.
  - destruct (byte_eqb_spec k k0) as [->|N];
      cbn [map fold_right fst snd]; [lia|].
    rewrite IH. lia.
Qed.

(** X19.  The number of encoded bits is fixed by the two tables: it is
    the sum, over the entries of the frequency table, of the frequency
    times the length of the code of the symbol -- as long as no byte value
    occurs 2^31 times or more. *)
Theorem encoded_length_from_tables (text : list char)
        (huffmanCode : unordered_map (list bool)) (encodedText : list bool) :
  (forall c, occurrences text c < 2 ^ 31) ->
  encodeText text huffmanCode = Ok encodedText ->
  Z.of_nat (length encodedText)
  = encoded_bits (buildFrequencyMap text) huffmanCode.
Proof.
  rewrite encodeText_closed_form.
  destruct (forallb (has_code huffmanCode) text); [|discriminate].
  intros Hocc E. injection E as <-. clear - Hocc.
  induction text as [|d text IH] using rev_ind; [reflexivity|].
  assert (Hocc' : forall c, occurrences text c < 2 ^ 31).
  { intros c. specialize (Hocc c). rewrite occurrences_snoc in Hocc.
    destruct (Byte.eqb d c); lia. }
  specialize (Hocc d). rewrite occurrences_snoc, byte_eqb_refl in Hocc.
  rewrite flat_map_app, length_app, Nat2Z.inj_add, (IH Hocc').
  rewrite buildFrequencyMap_snoc. unfold increment.
  rewrite encoded_bits_assign. f_equal.
  cbn [flat_map]. rewrite app_nil_r.
  pose proof (occurrences_bounds text d) as Hb.
  assert (Hidx : um_index d 0 (buildFrequencyMap text) = occurrences text d).
  { unfold um_index. rewrite buildFrequencyMap_find.
    destruct (occurrences text d =? 0) eqn:E0;
      [apply Z.eqb_eq in E0; lia | apply int_wrap_small; lia]. }
  rewrite Hidx, int_wrap_small by lia. lia.
Qed.

Lemma encoded_length_from_tables_witness :
  let text := ["a"%byte; "a"%byte; "a"%byte; "b"%byte; "b"%byte; "c"%byte] in
  let huffmanCode := [("a"%byte, [false]); ("c"%byte, [true; false]);
                      ("b"%byte, [true; true])] in
  let encodedText := [false; false; false; true; true; true; true; true; false] in
  encodeText text huffmanCode = Ok encodedText
  /\ Z.of_nat (length encodedText)
     = encoded_bits (buildFrequencyMap text) huffmanCode.
Proof.
  intros text huffmanCode encodedText.
  assert (E : encodeText text huffmanCode = Ok encodedText) by reflexivity.
  split; [exact E|].
  apply (@encoded_length_from_tables text huffmanCode encodedText); [|exact E].
  intros c. pose proof (occurrences_bounds text c) as Hb. simpl length in Hb. lia.
Defined.

(** ** What decompress can put out *)

Lemma leaf_chars_child p child (bit : bool) :
  (if bit then get_right p else get_left p) = Ok child ->
  is_null child = false ->
  forall c, In c (leaf_chars child) -> In c (leaf_chars p).
Proof.
  destruct p as [|ch f l r]; [destruct bit; discriminate|].
  intros E Nn c I. cbn [leaf_chars].
  destruct bit; cbn [get_left get_right] in E; injection E as ->.
  - rewrite Nn, andb_false_r. apply in_or_app. now right.
  - rewrite Nn. cbn [andb]. apply in_or_app. now left.
Qed.

Lemma decode_symbols root (encodedText : list bool) :
  forall current out,
    (forall c, In c (leaf_chars current) -> In c (leaf_chars root)) ->
    decode root current encodedText = Ok out ->
    Forall (fun c => In c (leaf_chars root)) out.
Proof.
  induction encodedText as [|bit rest IH]; intros current out Hsub E.
  - injection E as <-. constructor.
  - cbn [decode] in E.
    destruct (if bit then get_right current else get_left current)
      as [current'|] eqn:Ec; cbn [bind] in E; [|discriminate].
    destruct current' as [|ch f l r]; [discriminate|].
    assert (Hsub' : forall c, In c (leaf_chars (new_Node ch f l r)) ->
                              In c (leaf_chars root)).
    { intros c I. apply Hsub. eapply leaf_chars_child; eauto. }
    cbn [is_leaf get_left get_right bind] in E.
    destruct (is_null l && is_null r) eqn:El.
    + cbn [get_ch bind] in E.
      destruct (decode root root rest) as [out'|] eqn:Ed; cbn [bind] in E;
        [|discriminate].
      injection E as <-. constructor.
      * apply Hsub'. cbn [leaf_chars]. rewrite El. now left.
      * apply (IH root out'); auto.
    + apply (IH _ out Hsub' E).
Qed.

(** X20.  [decompress] never puts out a byte that is not a symbol of the
    frequency table of the container, whatever the bit stream holds. *)
Theorem decompress_outputs_table_symbols {P : Platform} {L : Lawful P}
        (inFile : ifstream) (freqMap : unordered_map Z) (rest : ifstream)
        (out : list char) :
  readFrequencyMap inFile = Ok (freqMap, rest) ->
  decompress inFile = Ok out ->
  Forall (fun c => In c (keys freqMap)) out.
Proof.
  intros Er E. unfold decompress in E. rewrite Er in E. cbn [bind] in E.
  destruct (buildHuffmanTree freqMap) as [root|] eqn:Eb; cbn [bind] in E;
    [|discriminate].
  destruct (readEncodedData rest) as [[padding bits]|]; cbn [bind] in E;
    [|discriminate].
  assert (N : freqMap <> []).
  { intros ->. rewrite buildHuffmanTree_nil in Eb. discriminate. }
  destruct (@buildHuffmanTree_spec _ _ _ N) as [root' [Er' [_ Hp]]].
  rewrite Eb in Er'. injection Er' as <-.
  apply decode_symbols in E; [|auto].
  eapply Forall_impl; [|exact E]. intros c I.
  exact (Permutation_in _ Hp I).
Qed.

Lemma decompress_outputs_table_symbols_witness :
  let inFile := [x02; x00; "a"%byte; x01; x00; x00; x00;
                 "b"%byte; x01; x00; x00; x00; x00; xa5] in
  let freqMap := [("a"%byte, 1); ("b"%byte, 1)] in
  @readFrequencyMap insertion_ordered inFile = Ok (freqMap, [x00; xa5])
  /\ exists out,
      @decompress insertion_ordered inFile = Ok out
      /\ Forall (fun c => In c (keys freqMap)) out.
Proof.
  intros inFile freqMap.
  assert (Er : @readFrequencyMap insertion_ordered inFile
               = Ok (freqMap, [x00; xa5])) by reflexivity.
  split; [exact Er|].
  destruct (@decompress insertion_ordered inFile) as [out|] eqn:E;
    [|vm_compute in E; discriminate].
  exists out. split; [reflexivity|].
  exact (@decompress_outputs_table_symbols insertion_ordered insertion_ordered_lawful
           inFile freqMap [x00; xa5] out Er E).
Defined.

(** X21.  When the table of a container has at least two symbols and
    its padding count does not exceed the bits that follow, [decompress]
    returns normally whatever these bits are: no bit sequence makes the
    decoding loop leave the tree. *)
Theorem decompress_returns_on_two_symbols {P : Platform} {L : Lawful P}
        (inFile : ifstream) (freqMap : unordered_map Z) (rest : ifstream)
        (padding : Z) (encodedText : list bool) :
  readFrequencyMap inFile = Ok (freqMap, rest) ->
  (2 <= length freqMap)%nat ->
  readEncodedData rest = Ok (padding, encodedText) ->
  exists out, decompress inFile = Ok out
              /\ (length out <= length encodedText)%nat.
Proof.
  intros Er H2 Ed.
  assert (N : freqMap <> []) by (intros ->; simpl in H2; lia).
  destruct (@buildHuffmanTree_spec _ _ _ N) as [root [Eb Hr]].
  assert (Hin := @root_of_two_is_inner _ _ Hr H2).
  destruct (@decode_total root (proj1 Hr) Hin encodedText root (proj1 Hr) Hin)
    as [out Eo].
  exists out. split.
  - unfold decompress. rewrite Er. cbn [bind]. rewrite Eb. cbn [bind].
    rewrite Ed. cbn [bind]. exact Eo.
  - exact (decode_length _ _ _ Eo).
Qed.

Lemma decompress_returns_on_two_symbols_witness :
  let inFile := [x02; x00; "a"%byte; x01; x00; x00; x00;
                 "b"%byte; x01; x00; x00; x00; x03; xa5; xff] in
  let freqMap := [("a"%byte, 1); ("b"%byte, 1)] in
  let encodedText := firstn 13 (flat_map bitset_to_string [xa5; xff]) in
  @readFrequencyMap insertion_ordered inFile = Ok (freqMap, [x03; xa5; xff])
  /\ (2 <= length freqMap)%nat
  /\ readEncodedData [x03; xa5; xff] = Ok (3, encodedText)
  /\ exists out, @decompress insertion_ordered inFile = Ok out
                 /\ (length out <= length encodedText)%nat.
Proof.
  intros inFile freqMap encodedText.
  assert (Er : @readFrequencyMap insertion_ordered inFile
               = Ok (freqMap, [x03; xa5; xff])) by reflexivity.
  assert (H2 : (2 <= length freqMap)%nat) by (simpl; lia).
  assert (Ed : readEncodedData [x03; xa5; xff] = Ok (3, encodedText)) by reflexivity.
  split; [exact Er|]. split; [exact H2|]. split; [exact Ed|].
  exact (@decompress_returns_on_two_symbols insertion_ordered insertion_ordered_lawful
           inFile freqMap [x03; xa5; xff] 3 encodedText Er H2 Ed).
Defined.
